(** * structopt: configuration structs bound to environment variables and flags

    A shallow embedding of package [structopt] (option inference from a
    tagged struct, the per-option [set], [Load], [urlValue.Set] and
    [urlValue.String]) together with the part of Go's [reflect], [os] and
    [flag] packages the package drives.

    - The string and number parsers of the standard library ([strconv],
      [time], [net/url], [strings]) are not part of the package: they are
      the fields of a record [GoLib] that every definition takes.  A parser
      returns its value and its error as Go does, so a value comes with an
      error too.
    - The record [Load] is given a pointer to is a list of fields in the
      caller's memory; the address of a field is its index.  Objects of
      user-defined types live in a heap of their own, so two fields may
      point to one object.
    - A field is declared with a concrete type or with an interface type.
      [set] writes through an untyped pointer that it casts to the dynamic
      type of the value the field held; the write is modelled as the
      replacement of the field's value, which is what it is at a field of a
      concrete type.  [concreteFields] says of a record that its options
      belong to such fields.
    - The process environment and [os.Args] are arguments of [Load].
    - A call returns, panics, or exits the process; the state it leaves
      behind is part of its result in each case.
    - Package flag is modelled as far as [Load] uses it: registration
      ([Var] and the typed [...Var] functions, with the panics of [Var]) and
      [Parse] with its command-line syntax and error handling.  The default
      and usage texts a flag set prints are left out. *)

From stdpp Require Import base strings list gmap.
From Stdlib Require Import Ascii ZArith.

Local Open Scope Z_scope.
Local Open Scope string_scope.
Local Open Scope list_scope.

(** ** Errors

    Go errors are built with [fmt.Errorf]; an error is modelled by the format
    that built it and the format's arguments. *)

Inductive error : Type :=
| libError (msg : string)
    (* an error value returned by a library parser or by a user's Set *)
| parseError (envVar fromEnv : string) (err : error)
    (* fmt.Errorf("parse error %s=%q: %w", o.envVar, fromEnv, err) *)
| unsupportedType (ty : string)
    (* fmt.Errorf("unsupported field type: %v", reflect.TypeOf(o.iface)) *)
| configShape (ty : string)
    (* fmt.Errorf("config must be a pointer to struct, got %v", ...) *)
| numError (err : error)
    (* package flag: numError(err) of a built-in numeric flag value *)
| ErrHelp
| badFlagSyntax (s : string)
| flagNotDefined (name : string)
| flagNeedsArgument (name : string)
| invalidBooleanValue (value name : string) (err : error)
| invalidBooleanFlag (name : string) (err : error)
| invalidFlagValue (value name : string) (err : error).

(** The cause an error wraps with [%w] ([errors.Unwrap]). *)
Definition Unwrap (e : error) : option error :=
  match e with
  | parseError _ _ err => Some err
  | _ => None
  end.

(** ** Values *)

(** [url.URL], restricted to its string fields. *)
Record URL : Type := mkURL {
  Scheme : string;
  Opaque : string;
  Host : string;
  Path : string;
  RawQuery : string;
  Fragment : string;
}.

Definition emptyURL : URL := mkURL EmptyString EmptyString EmptyString EmptyString EmptyString EmptyString.

(** The state of an object of a user-defined type, as bytes. *)
Definition object : Type := list Z.

(** [type value interface { Set(s string) error; String() string }]:
    the method set of a user-defined type, acting on the object the
    receiver points to.  [set] hands the user's own value to [flags.Var],
    and package flag asks every value it is given whether it also has a
    method [IsBoolFlag() bool] that returns true: [vIsBoolFlag] says so. *)
Record value : Type := mkValue {
  vSet : string → object → object * option error;
  vString : object → string;
  vIsBoolFlag : bool;
}.

(** A Go value together with its dynamic type, as the type switch of [set]
    sees it.  [float64] is kept as its IEEE-754 bit pattern, [time.Duration]
    as its nanosecond count.  [VValue] is a pointer (an address in the heap
    of user objects) whose type implements [value]; [VOther] is a value of
    any other type. *)
Inductive val : Type :=
| VString (s : string)
| VBool (b : bool)
| VInt (i : Z)
| VUint64 (u : Z)
| VInt64 (i : Z)
| VFloat64 (bits : Z)
| VDuration (d : Z)
| VURL (u : URL)
| VValue (ty : string) (v : value) (addr : nat)
| VOther (ty : string).

(** [reflect.TypeOf(x)] printed with [%v]. *)
Definition TypeOf (x : val) : string :=
  match x with
  | VString _ => "string"
  | VBool _ => "bool"
  | VInt _ => "int"
  | VUint64 _ => "uint64"
  | VInt64 _ => "int64"
  | VFloat64 _ => "float64"
  | VDuration _ => "time.Duration"
  | VURL _ => "url.URL"
  | VValue ty _ _ => ty
  | VOther ty => ty
  end.

(** ** The standard library the package calls *)

Record GoLib : Type := mkGoLib {
  ToUpper : string → string;                        (* strings.ToUpper *)
  TrimSpace : string → string;                      (* strings.TrimSpace *)
  ReplaceAll : string → string → string → string;   (* strings.ReplaceAll *)
  ParseBool : string → bool * option error;         (* strconv.ParseBool *)
  Atoi : string → Z * option error;                 (* strconv.Atoi *)
  ParseUint : string → Z → Z → Z * option error;    (* strconv.ParseUint(s, base, bitSize) *)
  ParseInt : string → Z → Z → Z * option error;     (* strconv.ParseInt(s, base, bitSize) *)
  ParseFloat : string → Z → Z * option error;       (* strconv.ParseFloat(s, bitSize) *)
  ParseDuration : string → Z * option error;        (* time.ParseDuration *)
  url_Parse : string → option URL * option error;   (* url.Parse; None is a nil pointer *)
  IntSize : Z;                                      (* strconv.IntSize *)
}.

(** ** reflect: struct fields and the config argument *)

(** The declared type of a field, [StructField.Type], as far as it matters
    to the package.  A field of a concrete type holds a value of exactly
    that type: [val.Interface()] has the declared type, and [val.Addr()]
    points to a value of that type.  A field of an interface type holds a
    type word and a data word: [val.Interface()] is the value inside the
    interface (nil for a nil interface), while [val.Addr()] still points to
    the two words. *)
Inductive declared : Type := Concrete | InterfaceType.

Record StructField : Type := mkField {
  Name : string;
  Exported : bool;                  (* the field has no PkgPath *)
  Tag : list (string * string);     (* the struct tag, as key/value pairs *)
  Type_ : declared;                 (* StructField.Type *)
}.

(** [StructTag.Get]: the value of [key], or the empty string. *)
Fixpoint Tag_Get (tag : list (string * string)) (key : string) : string :=
  match tag with
  | [] => EmptyString
  | (k, v) :: rest => if String.eqb k key then v else Tag_Get rest key
  end.

(** The caller's memory: the fields of the record [config] may point to,
    each with its declaration and the value it holds, and the objects that
    pointer-typed fields point to.  For a field of an interface type the
    value is the one inside the interface, [VOther] of the type name
    [<nil>] for a nil interface. *)
Record memory : Type := mkMemory {
  record : list (StructField * val);
  heap : list object;
}.

Inductive Kind : Type := Invalid | Ptr | Struct | OtherKind.

Definition Kind_eqb (a b : Kind) : bool :=
  match a, b with
  | Invalid, Invalid | Ptr, Ptr | Struct, Struct | OtherKind, OtherKind => true
  | _, _ => false
  end.

(** What [reflect.ValueOf] finds in the [config] argument. [ofStruct] is the
    record held in [memory]; [ofPtr zeroValue] is a nil pointer. *)
Inductive rvalue : Type :=
| zeroValue            (* reflect.ValueOf(nil) *)
| ofStruct
| ofOther              (* a value that is neither a pointer nor a struct *)
| ofPtr (elem : rvalue).

Definition rKind (v : rvalue) : Kind :=
  match v with
  | zeroValue => Invalid
  | ofStruct => Struct
  | ofOther => OtherKind
  | ofPtr _ => Ptr
  end.

Definition rElem (v : rvalue) : rvalue :=
  match v with
  | ofPtr e => e
  | _ => zeroValue
  end.

(** [config interface{}]: the argument's dynamic type, printed, and its value. *)
Record interface : Type := mkInterface {
  ifaceType : string;
  ValueOf : rvalue;
}.

(** [val.CanSet()] of a field of an addressable struct. *)
Definition CanSet (f : StructField) : bool := Exported f.

(** ** Package flag *)

Inductive ErrorHandling : Type := ContinueOnError | ExitOnError | PanicOnError.

(** The [flag.Value]s a flag can be bound to: the built-in ones of package
    flag, each holding the address of the variable it writes ([p]: the index
    of a field of the record), this package's [urlValue], and a user's
    [value]. *)
Inductive Value : Type :=
| stringValue (p : nat)
| boolValue (p : nat)
| intValue (p : nat)
| uint64Value (p : nat)
| int64Value (p : nat)
| float64Value (p : nat)
| durationValue (p : nat)
| urlValue (u : nat)
| userValue (ty : string) (v : value) (addr : nat).

Record Flag : Type := mkFlag {
  flName : string;
  flUsage : string;
  flValue : Value;
}.

Record FlagSet : Type := mkFlagSet {
  fsName : string;
  formal : gmap string Flag;
  errorHandling : ErrorHandling;
}.

Definition NewFlagSet (name : string) (eh : ErrorHandling) : FlagSet :=
  mkFlagSet name ∅ eh.

(** ** Effects: the record and the flag set are updated in place, and a call
    returns, panics or exits the process. *)

Record state : Type := mkState {
  mem : memory;
  fs : FlagSet;
}.

Inductive res (A : Type) : Type :=
| Done (a : A)
| Panic (msg : string)
| Exit (code : Z).
Arguments Done {A} a.
Arguments Panic {A} msg.
Arguments Exit {A} code.

Definition M (A : Type) : Type := state → res A * state.

Definition ret {A} (a : A) : M A := λ s, (Done a, s).

Definition bind {A B} (c : M A) (k : A → M B) : M B :=
  λ s, match c s with
       | (Done a, s') => k a s'
       | (Panic msg, s') => (Panic msg, s')
       | (Exit code, s') => (Exit code, s')
       end.

Definition panic {A} (msg : string) : M A := λ s, (Panic msg, s).

Declare Scope go_scope.
Delimit Scope go_scope with go.
Notation "x <- c ;; k" := (bind c (λ x, k))
  (at level 100, c at next level, right associativity) : go_scope.
Notation "c ;;; k" := (bind c (λ _, k))
  (at level 100, right associativity) : go_scope.
Local Open Scope go_scope.

(** [*p = v] for the field at address [p], through a pointer of the type of
    [v].  The write replaces the value of the field, which is what the code
    does at a field declared with that type.  At a field of an interface
    type the pointer [set] casts is of the wrong type, and the bytes it
    writes land on the two words of the interface and, for a wide value,
    on the fields behind it: that is outside this model.
    [concreteFields] says of a record that its options belong to fields of
    concrete types. *)
Definition pokeMem (p : nat) (v : val) (m : memory) : memory :=
  mkMemory (alter (λ fv, (fv.1, v)) p (record m)) (heap m).

Definition poke (p : nat) (v : val) : M unit :=
  λ s, (Done tt, mkState (pokeMem p v (mem s)) (fs s)).

(** Calling [Set] through a pointer to a user object.  A pointer that
    addresses no object is nil, and a method that reaches for its receiver
    panics on it. *)
Definition callSet (v : value) (addr : nat) (s : string) : M (option error) :=
  λ st, match heap (mem st) !! addr with
        | None => (Panic "nil pointer dereference", st)
        | Some obj =>
            let '(obj', err) := vSet v s obj in
            (Done err,
             mkState (mkMemory (record (mem st)) (<[addr := obj']> (heap (mem st))))
                     (fs st))
        end.

Fixpoint containsByte (c : Ascii.ascii) (s : string) : bool :=
  match s with
  | EmptyString => false
  | String a rest => if Ascii.eqb a c then true else containsByte c rest
  end.

Definition beginsWithDash (s : string) : bool :=
  match s with
  | String a _ => Ascii.eqb a "-"%char
  | EmptyString => false
  end.

(** [FlagSet.Var]: panics when the name begins with a dash, contains an
    equals sign, or is already defined. *)
Definition Var (value : Value) (name usage : string) : M unit :=
  λ s,
    if beginsWithDash name then (Panic "flag begins with -", s)
    else if containsByte "="%char name then (Panic "flag contains =", s)
    else match formal (fs s) !! name with
         | Some _ => (Panic "flag redefined", s)
         | None =>
             (Done tt,
              mkState (mem s)
                (mkFlagSet (fsName (fs s))
                           (<[name := mkFlag name usage value]> (formal (fs s)))
                           (errorHandling (fs s))))
         end.

(** [FlagSet.StringVar(p, name, value, usage)] and its siblings: the default
    is written to [*p], then the variable is registered. *)
Definition StringVar (p : nat) (name : string) (value : string) (usage : string) : M unit :=
  poke p (VString value) ;;; Var (stringValue p) name usage.
Definition BoolVar (p : nat) (name : string) (value : bool) (usage : string) : M unit :=
  poke p (VBool value) ;;; Var (boolValue p) name usage.
Definition IntVar (p : nat) (name : string) (value : Z) (usage : string) : M unit :=
  poke p (VInt value) ;;; Var (intValue p) name usage.
Definition Uint64Var (p : nat) (name : string) (value : Z) (usage : string) : M unit :=
  poke p (VUint64 value) ;;; Var (uint64Value p) name usage.
Definition Int64Var (p : nat) (name : string) (value : Z) (usage : string) : M unit :=
  poke p (VInt64 value) ;;; Var (int64Value p) name usage.
Definition Float64Var (p : nat) (name : string) (value : Z) (usage : string) : M unit :=
  poke p (VFloat64 value) ;;; Var (float64Value p) name usage.
Definition DurationVar (p : nat) (name : string) (value : Z) (usage : string) : M unit :=
  poke p (VDuration value) ;;; Var (durationValue p) name usage.

(** ** Package structopt *)

Definition flagSeps : list Ascii.ascii := ["."%char; "-"%char].
Definition envSep : string := "_".
Definition tagPrefix : string := "opt".

(** [type option struct]: [iface] is the snapshot of the field's value taken
    by [val.Interface()], [ptr] the address of the field. *)
Record Option : Type := mkOption {
  iface : val;
  ptr : nat;
  envVar : string;
  flagName : string;
  flagDesc : string;
}.

(** [os.Getenv]: the value of the variable, empty when it is not set. *)
Definition Getenv (env : gmap string string) (key : string) : string :=
  default EmptyString (env !! key).

Definition isEmpty (s : string) : bool :=
  match s with
  | EmptyString => true
  | String _ _ => false
  end.

(** The end of [set]: the parser's error is returned, wrapped, only when
    there was something to parse. *)
Definition report (L : GoLib) (o : Option) (fromEnv : string) (err : option error)
  : M (option error) :=
  match err with
  | Some e =>
      if negb (isEmpty (TrimSpace L fromEnv))
      then ret (Some (parseError (envVar o) fromEnv e))
      else ret None
  | None => ret None
  end.

(** [func (o option) set(flags *flag.FlagSet) error] *)
Definition set (L : GoLib) (env : gmap string string) (o : Option) : M (option error) :=
  let fromEnv := Getenv env (envVar o) in
  match iface o with
  | VString _ =>
      poke (ptr o) (VString fromEnv) ;;;
      StringVar (ptr o) (flagName o) fromEnv (flagDesc o) ;;;
      report L o fromEnv None
  | VBool _ =>
      let '(b, err) := ParseBool L fromEnv in
      poke (ptr o) (VBool b) ;;;
      BoolVar (ptr o) (flagName o) b (flagDesc o) ;;;
      report L o fromEnv err
  | VInt _ =>
      let '(i, err) := Atoi L fromEnv in
      poke (ptr o) (VInt i) ;;;
      IntVar (ptr o) (flagName o) i (flagDesc o) ;;;
      report L o fromEnv err
  | VUint64 _ =>
      let '(u, err) := ParseUint L fromEnv 10 64 in
      poke (ptr o) (VUint64 u) ;;;
      Uint64Var (ptr o) (flagName o) u (flagDesc o) ;;;
      report L o fromEnv err
  | VInt64 _ =>
      let '(i, err) := ParseInt L fromEnv 10 64 in
      poke (ptr o) (VInt64 i) ;;;
      Int64Var (ptr o) (flagName o) i (flagDesc o) ;;;
      report L o fromEnv err
  | VFloat64 _ =>
      let '(f, err) := ParseFloat L fromEnv 64 in
      poke (ptr o) (VFloat64 f) ;;;
      Float64Var (ptr o) (flagName o) f (flagDesc o) ;;;
      report L o fromEnv err
  | VDuration _ =>
      let '(d, err) := ParseDuration L fromEnv in
      poke (ptr o) (VDuration d) ;;;
      DurationVar (ptr o) (flagName o) d (flagDesc o) ;;;
      report L o fromEnv err
  | VURL _ =>
      let '(u, err) := url_Parse L fromEnv in
      match u with
      | None => panic "nil pointer dereference"      (* *up = *u *)
      | Some u' =>
          poke (ptr o) (VURL u') ;;;
          Var (urlValue (ptr o)) (flagName o) (flagDesc o) ;;;
          report L o fromEnv err
      end
  | VValue ty v addr =>
      err <- callSet v addr fromEnv ;;
      Var (userValue ty v addr) (flagName o) (flagDesc o) ;;;
      report L o fromEnv err
  | VOther _ =>
      ret (Some (unsupportedType (TypeOf (iface o))))
  end.

(** The body of the loop of [inferOptions], from field [i] on.  [val] is
    [structVal.Field(i).Interface()], the value the field holds (for a field
    of an interface type, the value inside it), and [i] stands for
    [val.Addr().Pointer()], the address of the field itself.  The declared
    type of the field is not looked at. *)
Fixpoint inferFields (L : GoLib) (prefix : string) (i : nat)
    (fields : list (StructField * val)) : list Option :=
  match fields with
  | [] => []
  | (typ, val) :: rest =>
      if negb (CanSet typ) then inferFields L prefix (S i) rest
      else
        let tag := Tag_Get (Tag typ) tagPrefix in
        if (String.length tag =? 0)%nat then inferFields L prefix (S i) rest
        else
          let envVar := ToUpper L tag in
          let envVar :=
            fold_left
              (λ envVar sep,
                 let _ := ReplaceAll L envVar (String sep EmptyString) envSep in
                 envVar)
              flagSeps envVar in
          mkOption val i (prefix +:+ envSep +:+ envVar) tag EmptyString
            :: inferFields L prefix (S i) rest
  end.

(** [func inferOptions(prefix string, config interface{}) ([]option, error)] *)
Definition inferOptions (L : GoLib) (prefix : string) (config : interface)
    (m : memory) : list Option * option error :=
  let v := ValueOf config in
  if negb (Kind_eqb (rKind v) Ptr) || negb (Kind_eqb (rKind (rElem v)) Struct)
  then ([], Some (configShape (ifaceType config)))
  else (inferFields L prefix 0 (record m), None).

(** [func (v *urlValue) Set(s string) error] *)
Definition urlValue_Set (L : GoLib) (u : nat) (s : string) : M (option error) :=
  let '(u', err) := url_Parse L s in
  match err with
  | Some e => ret (Some e)
  | None =>
      match u' with
      | None => panic "nil pointer dereference"
      | Some x => poke u (VURL x) ;;; ret None
      end
  end.

(** [func (v *urlValue) String() string].  The pointer [v.u] is nil in the
    zero value the flag package makes of the type; otherwise it is the
    field of the record the value was made for.  [URL.String] of package
    url is the parameter [URL_String]. *)
Definition urlValue_String (URL_String : URL → string) (u : option nat) (m : memory)
  : string :=
  match u with
  | None => EmptyString
  | Some p =>
      match record m !! p with
      | Some (_, VURL x) => URL_String x
      | _ => EmptyString
      end
  end.

(** ** Package flag: setting and parsing *)

(** [Value.Set] of each kind of flag value.  The built-in values store what
    the parser returned whether or not it failed. *)
Definition Value_Set (L : GoLib) (v : Value) (s : string) : M (option error) :=
  match v with
  | stringValue p =>
      poke p (VString s) ;;; ret None
  | boolValue p =>
      let '(b, err) := ParseBool L s in
      poke p (VBool b) ;;;
      ret (match err with Some _ => Some (libError "parse error") | None => None end)
  | intValue p =>
      let '(i, err) := ParseInt L s 0 (IntSize L) in
      poke p (VInt i) ;;; ret (numError <$> err)
  | uint64Value p =>
      let '(u, err) := ParseUint L s 0 64 in
      poke p (VUint64 u) ;;; ret (numError <$> err)
  | int64Value p =>
      let '(i, err) := ParseInt L s 0 64 in
      poke p (VInt64 i) ;;; ret (numError <$> err)
  | float64Value p =>
      let '(f, err) := ParseFloat L s 64 in
      poke p (VFloat64 f) ;;; ret (numError <$> err)
  | durationValue p =>
      let '(d, err) := ParseDuration L s in
      poke p (VDuration d) ;;;
      ret (match err with Some _ => Some (libError "parse error") | None => None end)
  | urlValue u => urlValue_Set L u s
  | userValue _ v addr => callSet v addr s
  end.

(** A bool flag needs no argument: [fv, ok := flag.Value.(boolFlag); ok &&
    fv.IsBoolFlag()].  Of the values of package flag only [boolValue] has
    the method; [urlValue] has not; a user value answers for itself. *)
Definition IsBoolFlag (v : Value) : bool :=
  match v with
  | boolValue _ => true
  | userValue _ u _ => vIsBoolFlag u
  | _ => false
  end.

(** The first equals sign of [s]: what is before it and what is after. *)
Fixpoint cutEquals (s : string) : option (string * string) :=
  match s with
  | EmptyString => None
  | String c rest =>
      if Ascii.eqb c "="%char then Some (EmptyString, rest)
      else match cutEquals rest with
           | Some (name, value) => Some (String c name, value)
           | None => None
           end
  end.

Inductive argument : Type :=
| nonFlag                                        (* parsing stops, the argument stays *)
| terminator                                     (* a double dash *)
| badSyntax
| flagArg (name : string) (value : option string).

(** The first part of [FlagSet.parseOne]: one or two dashes, a name, and a
    value after an equals sign that is not the name's first character. *)
Definition splitArgument (s : string) : argument :=
  match s with
  | String c0 (String c1 rest1 as rest0) =>
      if negb (Ascii.eqb c0 "-"%char) then nonFlag
      else if Ascii.eqb c1 "-"%char && isEmpty rest1 then terminator
      else
        let name := if Ascii.eqb c1 "-"%char then rest1 else rest0 in
        match name with
        | EmptyString => badSyntax
        | String n0 nrest =>
            if Ascii.eqb n0 "-"%char || Ascii.eqb n0 "="%char then badSyntax
            else match cutEquals nrest with
                 | Some (name', value) => flagArg (String n0 name') (Some value)
                 | None => flagArg name None
                 end
        end
  | _ => nonFlag
  end.

(** What [Parse] does with the error of [parseOne], by [errorHandling]. *)
Definition failf (err : error) : M (option error) :=
  λ s, match errorHandling (fs s) with
       | ContinueOnError => (Done (Some err), s)
       | ExitOnError =>
           (Exit (match err with ErrHelp => 0 | _ => 2 end), s)
       | PanicOnError => (Panic "flag: parse error", s)
       end.

(** [FlagSet.Parse(arguments)]: flags are consumed from the front of the
    list until a non-flag argument, the terminator or an error. *)
Fixpoint Parse (L : GoLib) (arguments : list string) : M (option error) :=
  match arguments with
  | [] => ret None
  | s :: rest =>
      match splitArgument s with
      | nonFlag | terminator => ret None
      | badSyntax => failf (badFlagSyntax s)
      | flagArg name value =>
          λ st,
            match formal (fs st) !! name with
            | None =>
                if String.eqb name "help" || String.eqb name "h"
                then failf ErrHelp st
                else failf (flagNotDefined name) st
            | Some flag =>
                if IsBoolFlag (flValue flag) then
                  match value with
                  | Some v =>
                      (err <- Value_Set L (flValue flag) v ;;
                       match err with
                       | Some e => failf (invalidBooleanValue v name e)
                       | None => Parse L rest
                       end) st
                  | None =>
                      (err <- Value_Set L (flValue flag) "true" ;;
                       match err with
                       | Some e => failf (invalidBooleanFlag name e)
                       | None => Parse L rest
                       end) st
                  end
                else
                  match value, rest with
                  | Some v, _ =>
                      (err <- Value_Set L (flValue flag) v ;;
                       match err with
                       | Some e => failf (invalidFlagValue v name e)
                       | None => Parse L rest
                       end) st
                  | None, v :: rest' =>
                      (err <- Value_Set L (flValue flag) v ;;
                       match err with
                       | Some e => failf (invalidFlagValue v name e)
                       | None => Parse L rest'
                       end) st
                  | None, [] => failf (flagNeedsArgument name) st
                  end
            end
      end
  end.

(** ** Load *)

(** The loop of [Load]: each option is set in order, and the first error is
    returned. *)
Fixpoint setAll (L : GoLib) (env : gmap string string) (opts : list Option)
  : M (option error) :=
  match opts with
  | [] => ret None
  | opt :: rest =>
      err <- set L env opt ;;
      match err with
      | Some e => ret (Some e)
      | None => setAll L env rest
      end
  end.

(** [func Load(prefix string, config interface{}, flags *flag.FlagSet) error].
    [env] is the process environment and [osArgs] is [os.Args]; [flags] is
    the caller's flag set, or [None] for a nil pointer.  The result is what
    the call did, the caller's memory and the caller's flag set afterwards. *)
Definition Load (L : GoLib) (env : gmap string string) (osArgs : list string)
    (prefix : string) (config : interface) (flags : option FlagSet) (m : memory)
  : res (option error) * memory * option FlagSet :=
  match inferOptions L prefix config m with
  | (_, Some err) => (Done (Some err), m, flags)
  | (opts, None) =>
      let fs0 :=
        match flags with
        | Some f => f
        | None => NewFlagSet prefix ExitOnError
        end in
      let run : M (option error) :=
        err <- setAll L env opts ;;
        match err with
        | Some e => ret (Some e)
        | None =>
            match flags with
            | Some _ =>
                match osArgs with
                | [] => panic "slice bounds out of range"     (* os.Args[1:] *)
                | _ :: args => Parse L args
                end
            | None => ret None
            end
        end in
      let '(r, s) := run (mkState m fs0) in
      (r, mem s, match flags with Some _ => Some (fs s) | None => None end)
  end.

(** ** A standard library to run the package on

    [testLib] gives the library functions on the inputs the package's tests
    use.  [ParseBool] is the one of strconv.  [ToUpper] and [TrimSpace] are
    those of package strings on ASCII text, and [ReplaceAll] the one of
    package strings for a non-empty [old].  [Atoi], [ParseInt] and
    [ParseUint] read decimal numbers with the range checks of strconv (with
    base 0, a literal that starts with a zero digit and a literal with an
    underscore are not covered and are rejected).  [ParseFloat],
    [ParseDuration] and [url_Parse] are tables of the strings that occur in
    the tests and in the examples below; any other string is rejected. *)
Module TestLib.

Local Open Scope Z_scope.

Definition errSyntax : error := libError "invalid syntax".
Definition errRange : error := libError "value out of range".

Definition upper (c : Ascii.ascii) : Ascii.ascii :=
  let n := nat_of_ascii c in
  if (97 <=? n)%nat && (n <=? 122)%nat then ascii_of_nat (n - 32) else c.

Fixpoint ToUpper (s : string) : string :=
  match s with
  | EmptyString => EmptyString
  | String c rest => String (upper c) (ToUpper rest)
  end.

Definition isSpace (c : Ascii.ascii) : bool :=
  let n := nat_of_ascii c in
  ((9 <=? n)%nat && (n <=? 13)%nat) || (n =? 32)%nat.

Fixpoint trimLeft (s : string) : string :=
  match s with
  | EmptyString => EmptyString
  | String c rest => if isSpace c then trimLeft rest else s
  end.

Fixpoint trimRight (s : string) : string :=
  match s with
  | EmptyString => EmptyString
  | String c rest =>
      let rest' := trimRight rest in
      if isEmpty rest' && isSpace c then EmptyString else String c rest'
  end.

Definition TrimSpace (s : string) : string := trimRight (trimLeft s).

Fixpoint replaceFrom (skip : nat) (s old new : string) : string :=
  match s with
  | EmptyString => EmptyString
  | String c rest =>
      match skip with
      | S k => replaceFrom k rest old new
      | O =>
          if String.prefix old s
          then new +:+ replaceFrom (String.length old - 1) rest old new
          else String c (replaceFrom 0 rest old new)
      end
  end.

Definition ReplaceAll (s old new : string) : string :=
  if isEmpty old then s else replaceFrom 0 s old new.

Definition ParseBool (s : string) : bool * option error :=
  if String.eqb s "1" || String.eqb s "t" || String.eqb s "T"
     || String.eqb s "TRUE" || String.eqb s "true" || String.eqb s "True"
  then (true, None)
  else if String.eqb s "0" || String.eqb s "f" || String.eqb s "F"
     || String.eqb s "FALSE" || String.eqb s "false" || String.eqb s "False"
  then (false, None)
  else (false, Some errSyntax).

Definition digit (c : Ascii.ascii) : option Z :=
  let n := nat_of_ascii c in
  if (48 <=? n)%nat && (n <=? 57)%nat then Some (Z.of_nat n - 48) else None.

(** The digit loop of [ParseUint]: the first bad byte is a syntax error,
    the first overflow a range error with the largest value. *)
Fixpoint digits (maxVal : Z) (n : Z) (s : string) : Z * option error :=
  match s with
  | EmptyString => (n, None)
  | String c rest =>
      match digit c with
      | None => (0, Some errSyntax)
      | Some d =>
          if maxVal <? n * 10 + d then (maxVal, Some errRange)
          else digits maxVal (n * 10 + d) rest
      end
  end.

Definition IntSize : Z := 64.

Definition ParseUint (s : string) (base bitSize : Z) : Z * option error :=
  let bitSize := if bitSize =? 0 then IntSize else bitSize in
  match s with
  | EmptyString => (0, Some errSyntax)
  | String c rest =>
      if (base =? 0) && Ascii.eqb c "0"%char && negb (isEmpty rest)
      then (0, Some errSyntax)
      else if (base =? 0) || (base =? 10)
      then digits (2 ^ bitSize - 1) 0 s
      else (0, Some errSyntax)
  end.

Definition ParseInt (s : string) (base bitSize : Z) : Z * option error :=
  match s with
  | EmptyString => (0, Some errSyntax)
  | String c rest =>
      let neg := Ascii.eqb c "-"%char in
      let s' := if Ascii.eqb c "+"%char || neg then rest else s in
      let '(un, err) := ParseUint s' base bitSize in
      let bitSize := if bitSize =? 0 then IntSize else bitSize in
      let cutoff := 2 ^ (bitSize - 1) in
      match err with
      | Some e =>
          if negb (Z.eqb un 0) then
            (* a range error *)
            if neg then (- cutoff, Some errRange) else (cutoff - 1, Some errRange)
          else (0, Some e)
      | None =>
          if negb neg && (cutoff <=? un) then (cutoff - 1, Some errRange)
          else if neg && (cutoff <? un) then (- cutoff, Some errRange)
          else (if neg then - un else un, None)
      end
  end.

Definition Atoi (s : string) : Z * option error := ParseInt s 10 0.

Definition ParseFloat (s : string) (bitSize : Z) : Z * option error :=
  if String.eqb s "1.2" then (0x3FF3333333333333, None)
  else if String.eqb s "2.4" then (0x4003333333333333, None)
  else (0, Some errSyntax).

Definition Second : Z := 1000000000.

Definition ParseDuration (s : string) : Z * option error :=
  if String.eqb s "1s" then (Second, None)
  else if String.eqb s "2s" then (2 * Second, None)
  else (0, Some (libError "time: invalid duration")).

Definition url_Parse (s : string) : option URL * option error :=
  if isEmpty s then (Some emptyURL, None)
  else if String.eqb s "https://example.com/env"
  then (Some (mkURL "https" EmptyString "example.com" "/env" EmptyString EmptyString), None)
  else if String.eqb s "https://example.com/flag"
  then (Some (mkURL "https" EmptyString "example.com" "/flag" EmptyString EmptyString), None)
  else (None, Some (libError "missing protocol scheme")).

Definition lib : GoLib :=
  mkGoLib ToUpper TrimSpace ReplaceAll ParseBool Atoi ParseUint ParseInt
          ParseFloat ParseDuration url_Parse IntSize.

End TestLib.

Definition testLib : GoLib := TestLib.lib.

(** ** Fixtures: the records of the package's tests *)

Definition optField (name tag : string) : StructField :=
  mkField name true [("opt", tag)] Concrete.

(** [*Config] and the other pointers to a struct the tests pass. *)
Definition ptrToStruct (ty : string) : interface := mkInterface ty (ofPtr ofStruct).

(** [type Config struct], with values of the caller's own in every field. *)
Definition Config : list (StructField * val) :=
  [ (optField "String" "string", VString "dflt");
    (optField "Int" "int", VInt 7);
    (optField "Int64" "int64", VInt64 7);
    (optField "Uint64" "uint64", VUint64 7);
    (optField "Float64" "float64", VFloat64 0x401C000000000000);
    (optField "Duration" "duration", VDuration 7);
    (optField "URL" "url", VURL emptyURL);
    (optField "Bool" "bool", VBool true) ].

(** The environment of [TestEnv] and [TestFlags]. *)
Definition testEnv : gmap string string :=
  list_to_map
    [ ("APP_DURATION", "1s"); ("APP_INT", "25");
      ("APP_INT64", "9223372036854775807"); ("APP_UINT64", "10");
      ("APP_FLOAT64", "1.2"); ("APP_BOOL", "true");
      ("APP_STRING", "string from env");
      ("APP_URL", "https://example.com/env") ].

(** [net.HardwareAddr.String]: the bytes in lower-case hexadecimal, joined
    by colons; the empty string for no bytes. *)
Definition hexDigit (n : Z) : Ascii.ascii :=
  match n with
  | 0 => "0" | 1 => "1" | 2 => "2" | 3 => "3" | 4 => "4" | 5 => "5" | 6 => "6"
  | 7 => "7" | 8 => "8" | 9 => "9" | 10 => "a" | 11 => "b" | 12 => "c"
  | 13 => "d" | 14 => "e" | _ => "f"
  end%char.

Fixpoint hardwareAddr_String (a : object) : string :=
  match a with
  | [] => EmptyString
  | b :: rest =>
      String (hexDigit (Z.shiftr b 4 mod 16)) (String (hexDigit (Z.land b 15))
        match rest with
        | [] => EmptyString
        | _ => String ":"%char (hardwareAddr_String rest)
        end)
  end.

(** [type macAddr] of the tests, with [net.ParseMAC] on the two addresses
    the tests use.  The type has no method [IsBoolFlag]. *)
Definition macAddr : value :=
  mkValue
    (λ s obj,
       if String.eqb s "aa:bb:cc:dd:ee:ff" then ([170; 187; 204; 221; 238; 255], None)
       else if String.eqb s "ff:ee:dd:cc:bb:aa" then ([255; 238; 221; 204; 187; 170], None)
       else (obj, Some (libError "address: invalid MAC address")))
    hardwareAddr_String
    false.

(** [Test{&macAddr{}}] of [TestUserDefinedType]. *)
Definition macTest : memory :=
  mkMemory [ (optField "MACAddress" "mac.address", VValue "*structopt.macAddr" macAddr 0) ]
           [ [] ].

(** A user type that is a boolean flag, as package flag understands it:
    besides [Set] and [String] it has [IsBoolFlag], which returns true.  Its
    object is one byte. *)
Definition switch : value :=
  mkValue
    (λ s obj,
       if String.eqb s "true" then ([1], None)
       else if String.eqb s "false" then ([0], None)
       else (obj, Some (libError "invalid switch")))
    (λ obj, match obj with [1] => "true" | _ => "false" end)
    true.

(** A struct with one field of that type, switched off. *)
Definition switchTest : memory :=
  mkMemory [ (optField "Verbose" "verbose", VValue "*main.switch" switch 0) ]
           [ [0] ].

(** * Vocabulary of the statements *)

(** The text [set] parses, read as a value of the kind of [x]: what the
    parser for that kind returns.  Nothing for a user value or a value of an
    unsupported type, and nothing when [url.Parse] returns no URL. *)
Definition parseAs (L : GoLib) (x : val) (s : string) : option (val * option error) :=
  match x with
  | VString _ => Some (VString s, None)
  | VBool _ => Some (prod_map VBool id (ParseBool L s))
  | VInt _ => Some (prod_map VInt id (Atoi L s))
  | VUint64 _ => Some (prod_map VUint64 id (ParseUint L s 10 64))
  | VInt64 _ => Some (prod_map VInt64 id (ParseInt L s 10 64))
  | VFloat64 _ => Some (prod_map VFloat64 id (ParseFloat L s 64))
  | VDuration _ => Some (prod_map VDuration id (ParseDuration L s))
  | VURL _ =>
      match url_Parse L s with
      | (Some u, err) => Some (VURL u, err)
      | (None, _) => None
      end
  | VValue _ _ _ | VOther _ => None
  end.

(** The text a flag is given on the command line, read as a value of the
    kind of [x]: what the parser of the flag's [Value.Set] returns. *)
Definition flagParseAs (L : GoLib) (x : val) (s : string) : option (val * option error) :=
  match x with
  | VString _ => Some (VString s, None)
  | VBool _ => Some (prod_map VBool id (ParseBool L s))
  | VInt _ => Some (prod_map VInt id (ParseInt L s 0 (IntSize L)))
  | VUint64 _ => Some (prod_map VUint64 id (ParseUint L s 0 64))
  | VInt64 _ => Some (prod_map VInt64 id (ParseInt L s 0 64))
  | VFloat64 _ => Some (prod_map VFloat64 id (ParseFloat L s 64))
  | VDuration _ => Some (prod_map VDuration id (ParseDuration L s))
  | VURL _ =>
      match url_Parse L s with
      | (Some u, err) => Some (VURL u, err)
      | (None, _) => None
      end
  | VValue _ _ _ | VOther _ => None
  end.

(** The flag value [set] registers for a field of the kind of [x] at [p]. *)
Definition flagValueOf (x : val) (p : nat) : option Value :=
  match x with
  | VString _ => Some (stringValue p)
  | VBool _ => Some (boolValue p)
  | VInt _ => Some (intValue p)
  | VUint64 _ => Some (uint64Value p)
  | VInt64 _ => Some (int64Value p)
  | VFloat64 _ => Some (float64Value p)
  | VDuration _ => Some (durationValue p)
  | VURL _ => Some (urlValue p)
  | VValue ty v addr => Some (userValue ty v addr)
  | VOther _ => None
  end.

Definition isBool (x : val) : bool :=
  match x with
  | VBool _ => true
  | _ => false
  end.


(** The error [report] returns. *)
Definition reported (L : GoLib) (o : Option) (fromEnv : string) (err : option error)
  : option error :=
  match err with
  | Some e =>
      if negb (isEmpty (TrimSpace L fromEnv))
      then Some (parseError (envVar o) fromEnv e)
      else None
  | None => None
  end.

(** A name [Var] accepts in a flag set. *)
Definition registrable (name : string) (f : FlagSet) : bool :=
  negb (beginsWithDash name) && negb (containsByte "="%char name)
  && match formal f !! name with None => true | Some _ => false end.

Definition register (fv : Value) (name usage : string) (f : FlagSet) : FlagSet :=
  mkFlagSet (fsName f) (<[name := mkFlag name usage fv]> (formal f)) (errorHandling f).

(** Every way a call of [set] can go, as a relation between the state before,
    the result and the state after. *)
Inductive set_spec (L : GoLib) (env : gmap string string) (o : Option) (s : state)
  : res (option error) → state → Prop :=
| set_unsupported ty :
    iface o = VOther ty →
    set_spec L env o s (Done (Some (unsupportedType ty))) s
| set_nil_url u0 err :
    iface o = VURL u0 →
    url_Parse L (Getenv env (envVar o)) = (None, err) →
    set_spec L env o s (Panic "nil pointer dereference") s
| set_nil_value ty u addr :
    iface o = VValue ty u addr →
    heap (mem s) !! addr = None →
    set_spec L env o s (Panic "nil pointer dereference") s
| set_stored v err fv :
    parseAs L (iface o) (Getenv env (envVar o)) = Some (v, err) →
    flagValueOf (iface o) (ptr o) = Some fv →
    registrable (flagName o) (fs s) = true →
    set_spec L env o s
      (Done (reported L o (Getenv env (envVar o)) err))
      (mkState (pokeMem (ptr o) v (mem s))
               (register fv (flagName o) (flagDesc o) (fs s)))
| set_stored_refused v err msg :
    parseAs L (iface o) (Getenv env (envVar o)) = Some (v, err) →
    registrable (flagName o) (fs s) = false →
    set_spec L env o s (Panic msg) (mkState (pokeMem (ptr o) v (mem s)) (fs s))
| set_called ty u addr obj :
    iface o = VValue ty u addr →
    heap (mem s) !! addr = Some obj →
    registrable (flagName o) (fs s) = true →
    set_spec L env o s
      (Done (reported L o (Getenv env (envVar o))
               (vSet u (Getenv env (envVar o)) obj).2))
      (mkState (mkMemory (record (mem s))
                  (<[addr := (vSet u (Getenv env (envVar o)) obj).1]> (heap (mem s))))
               (register (userValue ty u addr) (flagName o) (flagDesc o) (fs s)))
| set_called_refused ty u addr obj msg :
    iface o = VValue ty u addr →
    heap (mem s) !! addr = Some obj →
    registrable (flagName o) (fs s) = false →
    set_spec L env o s (Panic msg)
      (mkState (mkMemory (record (mem s))
                  (<[addr := (vSet u (Getenv env (envVar o)) obj).1]> (heap (mem s))))
               (fs s)).

(** What [Parse] does with exactly one flag that is defined, in either
    spelling. *)
Definition setFlag (L : GoLib) (fv : Value) (name v : string) : M (option error) :=
  err <- Value_Set L fv v ;;
  match err with
  | Some e =>
      failf (if IsBoolFlag fv then invalidBooleanValue v name e
             else invalidFlagValue v name e)
  | None => ret None
  end.

(** A field [inferOptions] makes an option for: settable, with a non-empty
    tag. *)
Definition recognised (typ : StructField) : bool :=
  CanSet typ && negb (isEmpty (Tag_Get (Tag typ) tagPrefix)).

(** The fields [inferOptions] makes options for are declared with concrete
    types: each option's pointer is then a pointer to a value of the
    dynamic type of its [iface], and the casts of [set] are of the right
    type. *)
Definition concreteFields (m : memory) : bool :=
  forallb (λ f, negb (recognised f.1)
                || match Type_ f.1 with Concrete => true | InterfaceType => false end)
          (record m).

(** The option made for the recognised field [i]. *)
Definition descriptor (L : GoLib) (prefix : string) (i : nat)
    (typ : StructField) (d : val) : Option :=
  mkOption d i
    (prefix +:+ envSep +:+ ToUpper L (Tag_Get (Tag typ) tagPrefix))
    (Tag_Get (Tag typ) tagPrefix) EmptyString.

(** The flag set the options are registered in, and the flag set the caller
    sees afterwards. *)
Definition flagSetFor (prefix : string) (flags : option FlagSet) : FlagSet :=
  match flags with
  | Some f => f
  | None => NewFlagSet prefix ExitOnError
  end.

Definition callerFlags (flags : option FlagSet) (s : state) : option FlagSet :=
  match flags with
  | Some _ => Some (fs s)
  | None => None
  end.

#[global] Instance rvalue_eq_dec : EqDecision rvalue.
Proof. solve_decision. Defined.

(** ** Shapes, and what a flag value writes *)

(** The field a flag value writes when it is set; a user value writes its
    object, not a field. *)
Definition writes (fv : Value) : option nat :=
  match fv with
  | stringValue p | boolValue p | intValue p | uint64Value p | int64Value p
  | float64Value p | durationValue p | urlValue p => Some p
  | userValue _ _ _ => None
  end.

(** The shape of a value: its constructor, and for a value of a named type
    the name. *)
Inductive shape : Type :=
| SString | SBool | SInt | SUint64 | SInt64 | SFloat64 | SDuration | SURL
| SValue (ty : string) (addr : nat)
| SOther (ty : string).

Definition shapeOf (x : val) : shape :=
  match x with
  | VString _ => SString
  | VBool _ => SBool
  | VInt _ => SInt
  | VUint64 _ => SUint64
  | VInt64 _ => SInt64
  | VFloat64 _ => SFloat64
  | VDuration _ => SDuration
  | VURL _ => SURL
  | VValue ty _ addr => SValue ty addr
  | VOther ty => SOther ty
  end.

(** The shape of the values a flag value writes. *)
Definition shapeWritten (fv : Value) : option shape :=
  match fv with
  | stringValue _ => Some SString
  | boolValue _ => Some SBool
  | intValue _ => Some SInt
  | uint64Value _ => Some SUint64
  | int64Value _ => Some SInt64
  | float64Value _ => Some SFloat64
  | durationValue _ => Some SDuration
  | urlValue _ => Some SURL
  | userValue _ _ _ => None
  end.

(** Every way a call of [Value.Set] can go. *)
Inductive Value_Set_spec (fv : Value) (s : state) : res (option error) → state → Prop :=
| Value_Set_same r :
    (∀ code, r ≠ Exit code) →
    Value_Set_spec fv s r s
| Value_Set_stored p v err :
    writes fv = Some p →
    shapeWritten fv = Some (shapeOf v) →
    Value_Set_spec fv s (Done err) (mkState (pokeMem p v (mem s)) (fs s))
| Value_Set_called ty u addr obj' err :
    fv = userValue ty u addr →
    Value_Set_spec fv s (Done err)
      (mkState (mkMemory (record (mem s)) (<[addr := obj']> (heap (mem s)))) (fs s)).

Definition isBuiltin (x : val) : bool :=
  match x with
  | VValue _ _ _ | VOther _ => false
  | _ => true
  end.

(** The record of [m1] is the record of [m] with new values of the old
    shapes in some settable tagged fields of built-in kinds. *)
Definition keepsShapes (m m1 : memory) : Prop :=
  length (record m1) = length (record m)
  ∧ ∀ i typ d,
      record m !! i = Some (typ, d) →
      ∃ d', record m1 !! i = Some (typ, d')
            ∧ shapeOf d' = shapeOf d
            ∧ (recognised typ = false ∨ isBuiltin d = false → d' = d).

(** Where a write of a value [v] at [p] is in place in the record of [m]:
    beyond its end (a variable of the caller's), or at a settable tagged
    field of a built-in kind that holds a value of the shape of [v]. *)
Definition inPlace (m : memory) (p : nat) (sh : shape) : Prop :=
  (length (record m) ≤ p)%nat
  ∨ ∃ typ d, record m !! p = Some (typ, d) ∧ recognised typ = true
             ∧ isBuiltin d = true ∧ sh = shapeOf d.

(** Every flag of [f] that writes a field writes in place. *)
Definition boundInPlace (m : memory) (f : FlagSet) : Prop :=
  ∀ n fl p sh,
    formal f !! n = Some fl → writes (flValue fl) = Some p →
    shapeWritten (flValue fl) = Some sh → inPlace m p sh.

(** Two options that differ at most in the value their field held when they
    were made, and not in its type. *)
Definition sameShape (o1 o2 : Option) : Prop :=
  ptr o1 = ptr o2 ∧ envVar o1 = envVar o2 ∧ flagName o1 = flagName o2
  ∧ flagDesc o1 = flagDesc o2 ∧ shapeOf (iface o1) = shapeOf (iface o2).


(** * Properties *)

(** ** What one option stores and registers *)

Lemma pokeMem_idemp p v m : pokeMem p v (pokeMem p v m) = pokeMem p v m.
Proof.
  unfold pokeMem; simpl. f_equal.
  rewrite list_alter_alter_eq. apply list_alter_ext; auto.
Qed.

Lemma poke_poke {A B} p v (c : M A) (k : M B) s :
  (poke p v ;;; (poke p v ;;; c) ;;; k) s = (poke p v ;;; c ;;; k) s.
Proof. unfold bind, poke; simpl. by rewrite pokeMem_idemp. Qed.

(** For the built-in kinds and [url.URL], [set] is: store the parsed value,
    register the flag, report. *)
Lemma set_builtin L env o v err fv s :
  parseAs L (iface o) (Getenv env (envVar o)) = Some (v, err) →
  (∀ ty u a, iface o ≠ VValue ty u a) →
  flagValueOf (iface o) (ptr o) = Some fv →
  set L env o s =
    (poke (ptr o) v ;;; Var fv (flagName o) (flagDesc o) ;;;
     report L o (Getenv env (envVar o)) err) s.
Proof.
  unfold set, parseAs, flagValueOf.
  unfold StringVar, BoolVar, IntVar, Uint64Var, Int64Var, Float64Var, DurationVar.
  destruct (iface o) eqn:Hi; intros Hp Hnv Hfv; simplify_eq/=.
  all: try (exfalso; by eapply Hnv).
  - apply poke_poke.
  - destruct (ParseBool L _); simplify_eq/=. apply poke_poke.
  - destruct (Atoi L _); simplify_eq/=. apply poke_poke.
  - destruct (ParseUint L _ _ _); simplify_eq/=. apply poke_poke.
  - destruct (ParseInt L _ _ _); simplify_eq/=. apply poke_poke.
  - destruct (ParseFloat L _ _); simplify_eq/=. apply poke_poke.
  - destruct (ParseDuration L _); simplify_eq/=. apply poke_poke.
  - destruct (url_Parse L _) as [[u1|] e]; simplify_eq/=. done.
Qed.

Lemma report_ret L o fromEnv err s :
  report L o fromEnv err s = (Done (reported L o fromEnv err), s).
Proof. unfold report, reported, ret. by repeat case_match. Qed.

Lemma Var_registrable fv name usage s :
  registrable name (fs s) = true →
  Var fv name usage s = (Done tt, mkState (mem s) (register fv name usage (fs s))).
Proof.
  unfold registrable, Var. intros H.
  destruct (beginsWithDash name); [done|].
  destruct (containsByte _ name); [done|].
  by destruct (formal (fs s) !! name).
Qed.

Lemma Var_not_registrable fv name usage s :
  registrable name (fs s) = false →
  ∃ msg, Var fv name usage s = (Panic msg, s).
Proof.
  unfold registrable, Var. intros H.
  destruct (beginsWithDash name); [by eexists|].
  destruct (containsByte _ name); [by eexists|].
  destruct (formal (fs s) !! name); [by eexists|done].
Qed.

(** The two ways [set] ends for a built-in kind or a URL that parsed. *)
Lemma set_builtin_run L env o v err fv s :
  parseAs L (iface o) (Getenv env (envVar o)) = Some (v, err) →
  (∀ ty u a, iface o ≠ VValue ty u a) →
  flagValueOf (iface o) (ptr o) = Some fv →
  (registrable (flagName o) (fs s) = true ∧
   set L env o s =
     (Done (reported L o (Getenv env (envVar o)) err),
      mkState (pokeMem (ptr o) v (mem s))
              (register fv (flagName o) (flagDesc o) (fs s))))
  ∨ (registrable (flagName o) (fs s) = false ∧
     ∃ msg, set L env o s = (Panic msg, mkState (pokeMem (ptr o) v (mem s)) (fs s))).
Proof.
  intros Hp Hnv Hfv. rewrite (set_builtin _ _ _ _ _ _ _ Hp Hnv Hfv).
  destruct (registrable (flagName o) (fs s)) eqn:Hr.
  - left. split; [done|]. unfold bind, poke.
    pose proof (Var_registrable fv (flagName o) (flagDesc o) (mkState (pokeMem (ptr o) v (mem s)) (fs s)) Hr) as HV.
    rewrite HV.

    by rewrite report_ret.
  - right. split; [done|].
    destruct (Var_not_registrable fv (flagName o) (flagDesc o)
                (mkState (pokeMem (ptr o) v (mem s)) (fs s)) Hr) as [msg Hm].
    exists msg. unfold bind, poke. by rewrite Hm.
Qed.

(** The ways [set] ends for a user value. *)
Lemma set_value_run L env o ty u addr s :
  iface o = VValue ty u addr →
  match heap (mem s) !! addr with
  | None => set L env o s = (Panic "nil pointer dereference", s)
  | Some obj =>
      let s1 := mkState (mkMemory (record (mem s))
                           (<[addr := (vSet u (Getenv env (envVar o)) obj).1]> (heap (mem s))))
                        (fs s) in
      if registrable (flagName o) (fs s)
      then set L env o s =
             (Done (reported L o (Getenv env (envVar o))
                      (vSet u (Getenv env (envVar o)) obj).2),
              mkState (mem s1) (register (userValue ty u addr) (flagName o) (flagDesc o) (fs s)))
      else ∃ msg, set L env o s = (Panic msg, s1)
  end.
Proof.
  intros Hi. destruct (heap (mem s) !! addr) as [obj|] eqn:Hh.
  - cbv zeta. destruct (vSet u _ obj) as [obj' err] eqn:Hs. simpl.
    destruct (registrable _ _) eqn:Hr.
    + pose proof (Var_registrable (userValue ty u addr) (flagName o) (flagDesc o)
        (mkState (mkMemory (record (mem s)) (<[addr:=obj']> (heap (mem s)))) (fs s)) Hr)
        as HV.
      unfold set. rewrite Hi. unfold bind, callSet. rewrite Hh, Hs, HV.
      by rewrite report_ret.
    + destruct (Var_not_registrable (userValue ty u addr) (flagName o) (flagDesc o)
        (mkState (mkMemory (record (mem s)) (<[addr:=obj']> (heap (mem s)))) (fs s)) Hr)
        as [msg Hm].
      exists msg. unfold set. rewrite Hi. unfold bind, callSet. by rewrite Hh, Hs, Hm.
  - unfold set. rewrite Hi. unfold bind, callSet. by rewrite Hh.
Qed.

Lemma set_other L env o ty s :
  iface o = VOther ty →
  set L env o s = (Done (Some (unsupportedType ty)), s).
Proof. intros Hi. unfold set. by rewrite Hi. Qed.

(** A URL field whose environment text [url.Parse] rejects: the nil pointer
    is dereferenced before the error is looked at. *)
Lemma set_url_nil L env o u0 err s :
  iface o = VURL u0 →
  url_Parse L (Getenv env (envVar o)) = (None, err) →
  set L env o s = (Panic "nil pointer dereference", s).
Proof. intros Hi Hp. unfold set. by rewrite Hi, Hp. Qed.

(** ** What [set] leaves alone *)

Lemma parseAs_cases L x s :
  (∃ v err, parseAs L x s = Some (v, err))
  ∨ (∃ u0 err, x = VURL u0 ∧ url_Parse L s = (None, err))
  ∨ (∃ ty u a, x = VValue ty u a)
  ∨ (∃ ty, x = VOther ty).
Proof.
  destruct x; simpl; eauto 7.
  all: try (left; match goal with |- context [prod_map _ _ ?p] => destruct p end; by eauto).
  destruct (url_Parse L s) as [[u1|] e]; eauto 7.
Qed.

Lemma parseAs_builtin L x s ve :
  parseAs L x s = Some ve →
  (∀ ty u a, x ≠ VValue ty u a) ∧ ∃ fv, ∀ p, flagValueOf x p = Some (fv p).
Proof. destruct x; simpl; intros H; try done; split; try done; by eexists. Qed.

Lemma set_sound L env o s r s' :
  set L env o s = (r, s') → set_spec L env o s r s'.
Proof.
  intros Hset.
  destruct (parseAs_cases L (iface o) (Getenv env (envVar o)))
    as [(v & err & Hp)|[(u0 & err & Hi & Hp)|[(ty & u & a & Hi)|(ty & Hi)]]].
  - destruct (parseAs_builtin _ _ _ _ Hp) as [Hnv [fv Hfv]].
    destruct (set_builtin_run L env o v err (fv (ptr o)) s Hp Hnv (Hfv _))
      as [[Hr He]|[Hr [msg He]]]; rewrite He in Hset; simplify_eq.
    + by eapply set_stored.
    + by eapply set_stored_refused.
  - rewrite (set_url_nil _ _ _ _ _ _ Hi Hp) in Hset. simplify_eq.
    by eapply set_nil_url.
  - pose proof (set_value_run L env o ty u a s Hi) as Hrun.
    destruct (heap (mem s) !! a) as [obj|] eqn:Hh.
    + cbv zeta in Hrun. destruct (registrable _ _) eqn:Hr.
      * rewrite Hrun in Hset. simplify_eq. by eapply set_called.
      * destruct Hrun as [msg Hrun]. rewrite Hrun in Hset. simplify_eq.
        by eapply set_called_refused.
    + rewrite Hrun in Hset. simplify_eq. by eapply set_nil_value.
  - rewrite (set_other _ _ _ _ _ Hi) in Hset. simplify_eq. by constructor.
Qed.

(** [set] writes no field of the record but its own, and leaves every
    declaration as it is. *)
Lemma set_record_frame L env o s r s' q :
  set L env o s = (r, s') → q ≠ ptr o →
  record (mem s') !! q = record (mem s) !! q.
Proof.
  intros Hset Hq. apply set_sound in Hset.
  inversion Hset; subst; simpl; try done.
  all: by rewrite list_lookup_alter_ne.
Qed.

Lemma pokeMem_decls p v m : (record (pokeMem p v m)).*1 = (record m).*1.
Proof.
  unfold pokeMem; simpl. apply list_eq; intros i.
  rewrite !list_lookup_fmap.
  destruct (decide (i = p)) as [->|Hne].
  - rewrite list_lookup_alter_eq. by destruct (record m !! p).
  - by rewrite list_lookup_alter_ne.
Qed.

Lemma set_decls L env o s r s' :
  set L env o s = (r, s') → (record (mem s')).*1 = (record (mem s)).*1.
Proof.
  intros Hset. apply set_sound in Hset.
  inversion Hset; subst; simpl; try done.
  all: apply pokeMem_decls.
Qed.

(** The flag set only grows, by the option's own flag. *)
Lemma set_formal_mono L env o s r s' n f :
  set L env o s = (r, s') →
  formal (fs s) !! n = Some f → formal (fs s') !! n = Some f.
Proof.
  intros Hset Hn. apply set_sound in Hset.
  inversion Hset; subst; simpl; try done.
  all: match goal with H : registrable _ _ = true |- _ =>
         unfold registrable in H; apply andb_prop in H as [_ H] end.
  all: rewrite lookup_insert_ne; [done|]; intros <-; by rewrite Hn in *.
Qed.

Lemma set_errorHandling L env o s r s' :
  set L env o s = (r, s') → errorHandling (fs s') = errorHandling (fs s).
Proof.
  intros Hset. apply set_sound in Hset. by inversion Hset; subst.
Qed.

(** ** The options [inferOptions] makes *)

Lemma length_zero_isEmpty s : (String.length s =? 0)%nat = isEmpty s.
Proof. by destruct s. Qed.

Lemma inferFields_cons L prefix i typ d rest :
  inferFields L prefix i ((typ, d) :: rest) =
  (if recognised typ then [descriptor L prefix i typ d] else [])
    ++ inferFields L prefix (S i) rest.
Proof.
  unfold recognised. simpl. rewrite length_zero_isEmpty.
  destruct (CanSet typ); simpl; [|done].
  by destruct (isEmpty _).
Qed.

Lemma inferFields_app L prefix i a b :
  inferFields L prefix i (a ++ b) =
  inferFields L prefix i a ++ inferFields L prefix (i + length a) b.
Proof.
  revert i. induction a as [|[typ d] a IH]; intros i.
  - simpl. by rewrite Nat.add_0_r.
  - rewrite <- app_comm_cons, !inferFields_cons, IH, <- app_assoc.
    do 3 f_equal. simpl. lia.
Qed.

Lemma elem_of_inferFields L prefix i fields o :
  o ∈ inferFields L prefix i fields ↔
  ∃ k typ d, fields !! k = Some (typ, d) ∧ recognised typ = true
             ∧ o = descriptor L prefix (i + k) typ d.
Proof.
  revert i. induction fields as [|[typ d] rest IH]; intros i.
  - simpl. split; [by intros ?%elem_of_nil|]. by intros (k & ? & ? & ? & _).
  - rewrite inferFields_cons, elem_of_app, IH. split.
    + intros [Ho|(k & typ' & d' & Hk & Hr & ->)].
      * destruct (recognised typ) eqn:Hr; [|by apply elem_of_nil in Ho].
        apply list_elem_of_singleton in Ho as ->.
        exists 0%nat, typ, d. by rewrite Nat.add_0_r.
      * exists (S k), typ', d'. split_and!; try done. f_equal. lia.
    + intros ([|k] & typ' & d' & Hk & Hr & ->); simplify_eq/=.
      * left. rewrite Hr, Nat.add_0_r. by apply list_elem_of_singleton.
      * right. exists k, typ', d'. split_and!; try done. f_equal. lia.
Qed.

Lemma inferFields_ptr_bounds L prefix i fields o :
  o ∈ inferFields L prefix i fields → (i ≤ ptr o < i + length fields)%nat.
Proof.
  intros (k & typ & d & Hk & _ & ->)%elem_of_inferFields. simpl.
  apply lookup_lt_Some in Hk. lia.
Qed.

Lemma inferFields_NoDup L prefix i fields :
  NoDup (ptr <$> inferFields L prefix i fields).
Proof.
  revert i. induction fields as [|[typ d] rest IH]; intros i.
  - constructor.
  - rewrite inferFields_cons, fmap_app.
    destruct (recognised typ); simpl; [|done].
    constructor; [|done].
    intros (o & Hp & Ho%inferFields_ptr_bounds)%list_elem_of_fmap. lia.
Qed.

(** ** The loop of [Load] *)

Lemma setAll_cons L env o rest s :
  setAll L env (o :: rest) s =
  match set L env o s with
  | (Done None, s1) => setAll L env rest s1
  | (Done (Some e), s1) => (Done (Some e), s1)
  | (Panic msg, s1) => (Panic msg, s1)
  | (Exit code, s1) => (Exit code, s1)
  end.
Proof.
  simpl. unfold bind. destruct (set L env o s) as [[[e|]| |] s1]; done.
Qed.

Lemma setAll_app L env pre post s :
  setAll L env (pre ++ post) s =
  match setAll L env pre s with
  | (Done None, s1) => setAll L env post s1
  | other => other
  end.
Proof.
  revert s. induction pre as [|o pre IH]; intros s; [done|].
  rewrite <- app_comm_cons, !setAll_cons.
  destruct (set L env o s) as [[[e|]| |] s1]; done.
Qed.

Ltac setAll_nil H := cbv [setAll ret] in H; by simplify_eq.

(** [set] never exits the process, and neither does the loop. *)
Lemma set_no_exit L env o s code s' : set L env o s ≠ (Exit code, s').
Proof. intros H. apply set_sound in H. inversion H. Qed.

Lemma setAll_record_frame L env opts s r s' q :
  setAll L env opts s = (r, s') → q ∉ ptr <$> opts →
  record (mem s') !! q = record (mem s) !! q.
Proof.
  revert s. induction opts as [|o opts IH]; intros s Hrun Hq.
  - setAll_nil Hrun.
  - rewrite setAll_cons in Hrun. rewrite fmap_cons, not_elem_of_cons in Hq.
    destruct Hq as [Hne Hq].
    destruct (set L env o s) as [[[e|]| |] s1] eqn:Hset; simplify_eq.
    all: try by eapply set_record_frame.
    rewrite (IH _ Hrun Hq). by eapply set_record_frame.
Qed.

Lemma setAll_decls L env opts s r s' :
  setAll L env opts s = (r, s') → (record (mem s')).*1 = (record (mem s)).*1.
Proof.
  revert s. induction opts as [|o opts IH]; intros s Hrun.
  - setAll_nil Hrun.
  - rewrite setAll_cons in Hrun.
    destruct (set L env o s) as [[[e|]| |] s1] eqn:Hset; simplify_eq.
    all: try by eapply set_decls.
    rewrite (IH _ Hrun). by eapply set_decls.
Qed.

Lemma setAll_formal_mono L env opts s r s' n f :
  setAll L env opts s = (r, s') →
  formal (fs s) !! n = Some f → formal (fs s') !! n = Some f.
Proof.
  revert s. induction opts as [|o opts IH]; intros s Hrun Hn.
  - setAll_nil Hrun.
  - rewrite setAll_cons in Hrun.
    destruct (set L env o s) as [[[e|]| |] s1] eqn:Hset; simplify_eq.
    all: try by eapply set_formal_mono.
    eapply IH; [done|]. by eapply set_formal_mono.
Qed.

Lemma setAll_errorHandling L env opts s r s' :
  setAll L env opts s = (r, s') → errorHandling (fs s') = errorHandling (fs s).
Proof.
  revert s. induction opts as [|o opts IH]; intros s Hrun.
  - setAll_nil Hrun.
  - rewrite setAll_cons in Hrun.
    destruct (set L env o s) as [[[e|]| |] s1] eqn:Hset; simplify_eq.
    all: try by eapply set_errorHandling.
    rewrite (IH _ Hrun). by eapply set_errorHandling.
Qed.

(** When the loop ends without an error, every option has its flag in the
    flag set, under a name the command line can spell. *)
Lemma setAll_registered L env opts s s' o :
  setAll L env opts s = (Done None, s') → o ∈ opts →
  ∃ fv, flagValueOf (iface o) (ptr o) = Some fv
        ∧ formal (fs s') !! flagName o = Some (mkFlag (flagName o) (flagDesc o) fv)
        ∧ beginsWithDash (flagName o) = false
        ∧ containsByte "="%char (flagName o) = false.
Proof.
  revert s. induction opts as [|o' opts IH]; intros s Hrun Ho.
  - by apply elem_of_nil in Ho.
  - rewrite setAll_cons in Hrun.
    destruct (set L env o' s) as [[[e|]| |] s1] eqn:Hset; simplify_eq.
    apply elem_of_cons in Ho as [->|Ho]; [|by eapply IH].
    assert (∃ fv, flagValueOf (iface o') (ptr o') = Some fv
                  ∧ registrable (flagName o') (fs s) = true
                  ∧ fs s1 = register fv (flagName o') (flagDesc o') (fs s))
      as (fv & Hfv & Hr & Hfs).
    { apply set_sound in Hset.
      inversion Hset; subst; eexists; (split; [|split; [eassumption|reflexivity]]);
        first [eassumption
              |by match goal with H : iface _ = _ |- _ => rewrite H end]. }
    exists fv. split; [done|]. split.
    + eapply setAll_formal_mono; [done|]. rewrite Hfs. simpl.
      apply lookup_insert_eq.
    + unfold registrable in Hr.
      apply andb_prop in Hr as [[H1 H2]%andb_prop _].
      by rewrite !negb_true_iff in H1, H2.
Qed.

(** When the loop ends without an error, a field of a built-in kind holds
    what its parser returned for the environment text. *)
Lemma setAll_stored L env opts s s' o typ d v err :
  setAll L env opts s = (Done None, s') →
  NoDup (ptr <$> opts) → o ∈ opts →
  record (mem s) !! ptr o = Some (typ, d) →
  parseAs L (iface o) (Getenv env (envVar o)) = Some (v, err) →
  record (mem s') !! ptr o = Some (typ, v).
Proof.
  revert s. induction opts as [|o' opts IH]; intros s Hrun Hnd Ho Hrec Hp.
  - by apply elem_of_nil in Ho.
  - rewrite setAll_cons in Hrun. rewrite fmap_cons in Hnd.
    apply NoDup_cons in Hnd as [Hnotin Hnd].
    destruct (set L env o' s) as [[[e|]| |] s1] eqn:Hset; simplify_eq.
    apply elem_of_cons in Ho as [->|Ho].
    + rewrite (setAll_record_frame _ _ _ _ _ _ _ Hrun Hnotin).
      apply set_sound in Hset. inversion Hset; subst; simplify_eq/=.
      all: try by match goal with H : iface _ = _ |- _ => rewrite H in Hp end.
      by rewrite list_lookup_alter_eq, Hrec.
    + eapply IH; try done.
      rewrite (set_record_frame _ _ _ _ _ _ _ Hset); [done|].
      intros Heq. apply Hnotin. rewrite <- Heq. by apply list_elem_of_fmap_2.
Qed.

(** ** Load *)

Lemma inferOptions_struct L prefix config m :
  ValueOf config = ofPtr ofStruct →
  inferOptions L prefix config m = (inferFields L prefix 0 (record m), None).
Proof. intros H. unfold inferOptions. by rewrite H. Qed.

Lemma inferOptions_not_struct L prefix config m :
  ValueOf config ≠ ofPtr ofStruct →
  inferOptions L prefix config m = ([], Some (configShape (ifaceType config))).
Proof.
  intros H. unfold inferOptions.
  destruct (ValueOf config) as [| | |[| | |e]]; try done.
Qed.

Lemma inferOptions_inv L prefix config m opts :
  inferOptions L prefix config m = (opts, None) →
  ValueOf config = ofPtr ofStruct ∧ opts = inferFields L prefix 0 (record m).
Proof.
  intros H. destruct (decide (ValueOf config = ofPtr ofStruct)) as [Heq|Hne].
  - rewrite inferOptions_struct in H by done. by simplify_eq.
  - by rewrite inferOptions_not_struct in H.
Qed.

Lemma Load_struct L env osArgs prefix config flags m :
  ValueOf config = ofPtr ofStruct →
  Load L env osArgs prefix config flags m =
  match setAll L env (inferFields L prefix 0 (record m))
          (mkState m (flagSetFor prefix flags)) with
  | (Done None, s1) =>
      match flags, osArgs with
      | None, _ => (Done None, mem s1, None)
      | Some _, [] => (Panic "slice bounds out of range", mem s1, Some (fs s1))
      | Some _, _ :: args =>
          let '(r, s2) := Parse L args s1 in (r, mem s2, Some (fs s2))
      end
  | (r, s1) => (r, mem s1, callerFlags flags s1)
  end.
Proof.
  intros H. unfold Load. rewrite inferOptions_struct by done.
  unfold bind, flagSetFor, callerFlags.
  destruct (setAll L env _ _) as [[[e|]| |] s1]; try done.
  destruct flags as [f|]; [|done].
  destruct osArgs as [|prog args]; [done|].
  by destruct (Parse L args s1).
Qed.

(** ** One flag on the command line *)

Lemma cutEquals_none s : containsByte "="%char s = false → cutEquals s = None.
Proof.
  induction s as [|c s IH]; simpl; [done|].
  destruct (Ascii.eqb c "="); [done|]. intros H. by rewrite IH.
Qed.

Lemma cutEquals_append s v :
  containsByte "="%char s = false →
  cutEquals (s +:+ "=" +:+ v) = Some (s, v).
Proof.
  induction s as [|c s IH]; simpl; [done|].
  destruct (Ascii.eqb c "="); [done|]. intros H. by rewrite IH.
Qed.

Lemma splitArgument_plain name :
  name ≠ EmptyString →
  beginsWithDash name = false →
  containsByte "="%char name = false →
  splitArgument ("-" +:+ name) = flagArg name None.
Proof.
  destruct name as [|n0 name]; [done|]. simpl. intros _ Hd.
  destruct (Ascii.eqb n0 "=") eqn:Hn0; [done|]. intros He.
  rewrite Hd. simpl. by rewrite Hn0, Hd, cutEquals_none.
Qed.

Lemma splitArgument_equals name v :
  name ≠ EmptyString →
  beginsWithDash name = false →
  containsByte "="%char name = false →
  splitArgument ("-" +:+ name +:+ "=" +:+ v) = flagArg name (Some v).
Proof.
  destruct name as [|n0 name]; [done|]. simpl. intros _ Hd.
  destruct (Ascii.eqb n0 "=") eqn:Hn0; [done|]. intros He.
  rewrite Hd. simpl. by rewrite Hn0, Hd, cutEquals_append.
Qed.

Lemma Parse_one_equals L name usage fv v s :
  name ≠ EmptyString →
  beginsWithDash name = false →
  containsByte "="%char name = false →
  formal (fs s) !! name = Some (mkFlag name usage fv) →
  Parse L ["-" +:+ name +:+ "=" +:+ v] s = setFlag L fv name v s.
Proof.
  intros Hn Hd He Hf. unfold Parse, setFlag.
  rewrite splitArgument_equals, Hf by done. simpl.
  unfold bind. destruct (IsBoolFlag fv);
    by destruct (Value_Set L fv v s) as [[[e|]| |] s'].
Qed.

Lemma Parse_one_plain L name usage fv v s :
  name ≠ EmptyString →
  beginsWithDash name = false →
  containsByte "="%char name = false →
  formal (fs s) !! name = Some (mkFlag name usage fv) →
  IsBoolFlag fv = false →
  Parse L ["-" +:+ name; v] s = setFlag L fv name v s.
Proof.
  intros Hn Hd He Hf Hb. unfold Parse, setFlag.
  rewrite splitArgument_plain, Hf by done. simpl. rewrite Hb.
  unfold bind. by destruct (Value_Set L fv v s) as [[[e|]| |] s'].
Qed.

Lemma Value_Set_valid L x p a v fv s :
  flagParseAs L x a = Some (v, None) →
  flagValueOf x p = Some fv →
  Value_Set L fv a s = (Done None, mkState (pokeMem p v (mem s)) (fs s)).
Proof.
  unfold flagParseAs, flagValueOf, Value_Set, urlValue_Set.
  destruct x; intros Hp Hfv; simplify_eq/=; try done.
  - by destruct (ParseBool L a); simplify_eq/=.
  - by destruct (ParseInt L a 0 (IntSize L)); simplify_eq/=.
  - by destruct (ParseUint L a 0 64); simplify_eq/=.
  - by destruct (ParseInt L a 0 64); simplify_eq/=.
  - by destruct (ParseFloat L a 64); simplify_eq/=.
  - by destruct (ParseDuration L a); simplify_eq/=.
  - by destruct (url_Parse L a) as [[u1|] [e|]]; simplify_eq/=.
Qed.

Lemma setFlag_valid L x p a v fv name s :
  flagParseAs L x a = Some (v, None) →
  flagValueOf x p = Some fv →
  setFlag L fv name a s = (Done None, mkState (pokeMem p v (mem s)) (fs s)).
Proof.
  intros Hp Hfv. unfold setFlag, bind.
  by rewrite (Value_Set_valid _ _ _ _ _ _ _ Hp Hfv).
Qed.

Lemma setFlag_user L ty u addr a name obj obj' s :
  heap (mem s) !! addr = Some obj →
  vSet u a obj = (obj', None) →
  setFlag L (userValue ty u addr) name a s
  = (Done None,
     mkState (mkMemory (record (mem s)) (<[addr := obj']> (heap (mem s)))) (fs s)).
Proof.
  intros Hh Hs. unfold setFlag, bind, Value_Set, callSet. by rewrite Hh, Hs.
Qed.

(** ** User objects *)

(** [set] changes no object but the one its own option points to. *)
Lemma set_heap_frame L env o s r s' addr :
  set L env o s = (r, s') →
  (∀ ty u, iface o ≠ VValue ty u addr) →
  heap (mem s') !! addr = heap (mem s) !! addr.
Proof.
  intros Hset Hne. apply set_sound in Hset.
  inversion Hset; subst; simpl; try done.
  all: rewrite list_lookup_insert_ne; [done|]; intros ->; by eapply Hne.
Qed.

Lemma setAll_heap_frame L env opts s r s' addr :
  setAll L env opts s = (r, s') →
  (∀ o ty u, o ∈ opts → iface o ≠ VValue ty u addr) →
  heap (mem s') !! addr = heap (mem s) !! addr.
Proof.
  revert s. induction opts as [|o opts IH]; intros s Hrun Hne.
  - setAll_nil Hrun.
  - rewrite setAll_cons in Hrun.
    assert (∀ ty u, iface o ≠ VValue ty u addr) as Ho
      by (intros ty u; apply Hne; left).
    assert (∀ o' ty u, o' ∈ opts → iface o' ≠ VValue ty u addr) as Hrest
      by (intros o' ty u Ho'; apply Hne; by right).
    destruct (set L env o s) as [[[e|]| |] s1] eqn:Hset; simplify_eq.
    all: try by eapply set_heap_frame.
    rewrite (IH _ Hrun Hrest). by eapply set_heap_frame.
Qed.

(** When the loop ends without an error and one option only points to the
    object at [addr], the object is what the option's [Set] made of it. *)
Lemma setAll_called L env opts s s' o ty u addr obj :
  setAll L env opts s = (Done None, s') →
  NoDup (ptr <$> opts) → o ∈ opts →
  iface o = VValue ty u addr →
  (∀ o' ty' u', o' ∈ opts → ptr o' ≠ ptr o → iface o' ≠ VValue ty' u' addr) →
  heap (mem s) !! addr = Some obj →
  heap (mem s') !! addr = Some (vSet u (Getenv env (envVar o)) obj).1.
Proof.
  revert s. induction opts as [|o' opts IH]; intros s Hrun Hnd Ho Hi Hne Hh.
  - by apply elem_of_nil in Ho.
  - rewrite setAll_cons in Hrun. rewrite fmap_cons in Hnd.
    apply NoDup_cons in Hnd as [Hnotin Hnd].
    destruct (set L env o' s) as [[[e|]| |] s1] eqn:Hset; simplify_eq.
    apply elem_of_cons in Ho as [->|Ho].
    + rewrite (setAll_heap_frame _ _ _ _ _ _ addr Hrun).
      * pose proof (set_value_run L env o' ty u addr s Hi) as Hone.
        rewrite Hh in Hone. cbv zeta in Hone.
        destruct (registrable (flagName o') (fs s)).
        -- rewrite Hone in Hset. simplify_eq/=.
           apply list_lookup_insert_eq. by eapply lookup_lt_Some.
        -- destruct Hone as [msg Hone]. by rewrite Hone in Hset.
      * intros o2 ty2 u2 Ho2. apply Hne; [by right|].
        intros Heq. apply Hnotin. rewrite <- Heq. by apply list_elem_of_fmap_2.
    + assert (ptr o' ≠ ptr o) as Hptr.
      { intros Heq. apply Hnotin. rewrite Heq. by apply list_elem_of_fmap_2. }
      eapply IH; try done.
      * intros o2 ty2 u2 Ho2. apply Hne. by right.
      * rewrite (set_heap_frame _ _ _ _ _ _ addr Hset); [done|].
        intros ty' u'. apply Hne; [left|done].
Qed.

(** ** Load, when the loop ends without an error *)

Lemma Load_no_arguments_inv L env osArgs prefix config flags m m1 f1 :
  ValueOf config = ofPtr ofStruct →
  flags = None ∨ tail osArgs = [] →
  Load L env osArgs prefix config flags m = (Done None, m1, f1) →
  ∃ s1, setAll L env (inferFields L prefix 0 (record m))
          (mkState m (flagSetFor prefix flags)) = (Done None, s1)
        ∧ m1 = mem s1 ∧ f1 = callerFlags flags s1.
Proof.
  intros Hcfg Hargs. rewrite Load_struct by done.
  destruct (setAll L env _ _) as [[[e|]| |] s1]; try done.
  destruct flags as [f0|]; simpl.
  - destruct Hargs as [|Hargs]; [done|].
    destruct osArgs as [|prog args]; [done|]. simpl in Hargs. subst args.
    simpl. unfold ret. intros ?; simplify_eq. by exists s1.
  - intros ?; simplify_eq. by exists s1.
Qed.

Lemma Load_arguments L env prog args prefix config f0 m s1 :
  ValueOf config = ofPtr ofStruct →
  setAll L env (inferFields L prefix 0 (record m)) (mkState m f0) = (Done None, s1) →
  Load L env (prog :: args) prefix config (Some f0) m
  = let '(r, s2) := Parse L args s1 in (r, mem s2, Some (fs s2)).
Proof.
  intros Hcfg Hrun. rewrite Load_struct by done. simpl. by rewrite Hrun.
Qed.

(** The option of a recognised field, and what the loop made of it. *)
Lemma recognised_descriptor L prefix m i typ d :
  record m !! i = Some (typ, d) →
  CanSet typ = true →
  Tag_Get (Tag typ) tagPrefix ≠ EmptyString →
  descriptor L prefix i typ d ∈ inferFields L prefix 0 (record m).
Proof.
  intros Hi Hc Ht. apply elem_of_inferFields. exists i, typ, d.
  split_and!; try done.
  unfold recognised. rewrite Hc. by destruct (Tag_Get (Tag typ) tagPrefix).
Qed.

Lemma setAll_keeps_declaration L env opts s r s' i typ d :
  setAll L env opts s = (r, s') →
  record (mem s) !! i = Some (typ, d) →
  ∃ d', record (mem s') !! i = Some (typ, d').
Proof.
  intros Hrun Hi. apply setAll_decls in Hrun.
  assert ((record (mem s')).*1 !! i = Some typ) as Hd.
  { rewrite Hrun, list_lookup_fmap, Hi. done. }
  rewrite list_lookup_fmap in Hd.
  destruct (record (mem s') !! i) as [[typ' d']|]; simplify_eq/=. by exists d'.
Qed.

Lemma pokeMem_lookup p v m typ d :
  record m !! p = Some (typ, d) → record (pokeMem p v m) !! p = Some (typ, v).
Proof. intros H. unfold pokeMem; simpl. by rewrite list_lookup_alter_eq, H. Qed.

(** ** When the loop cannot fail *)


(** ** The environment [set] reads *)

Lemma set_env_ext L env1 env2 o s :
  Getenv env1 (envVar o) = Getenv env2 (envVar o) →
  set L env1 o s = set L env2 o s.
Proof. intros H. unfold set. by rewrite H. Qed.

Lemma setAll_env_ext L env1 env2 opts s :
  (∀ o, o ∈ opts → Getenv env1 (envVar o) = Getenv env2 (envVar o)) →
  setAll L env1 opts s = setAll L env2 opts s.
Proof.
  revert s. induction opts as [|o opts IH]; intros s H; [done|].
  rewrite !setAll_cons, (set_env_ext L env1 env2 o s) by (apply H; left).
  destruct (set L env2 o s) as [[[e|]| |] s1]; try done.
  apply IH. intros o' Ho'. apply H. by right.
Qed.

(** ** The order of the options *)

Lemma inferFields_length L prefix i fields :
  (length (inferFields L prefix i fields) ≤ length fields)%nat.
Proof.
  revert i. induction fields as [|[typ d] rest IH]; intros i; [done|].
  rewrite inferFields_cons, length_app. specialize (IH (S i)).
  destruct (recognised typ); simpl; lia.
Qed.

Lemma inferFields_increasing L prefix i fields j k o o' :
  inferFields L prefix i fields !! j = Some o →
  inferFields L prefix i fields !! k = Some o' →
  (j < k)%nat → (ptr o < ptr o')%nat.
Proof.
  revert i j k. induction fields as [|[typ d] rest IH]; intros i j k; [done|].
  rewrite inferFields_cons. destruct (recognised typ); simpl.
  - destruct j as [|j], k as [|k]; simpl; try lia.
    + intros ? Ho' _. simplify_eq. simpl.
      apply list_elem_of_lookup_2, inferFields_ptr_bounds in Ho'. lia.
    + intros Ho Ho' Hjk. eapply IH; [done|done|lia].
  - apply IH.
Qed.

(** ** What [Parse] keeps *)

Lemma Value_Set_sound L fv a s r s' :
  Value_Set L fv a s = (r, s') → Value_Set_spec fv s r s'.
Proof.
  unfold Value_Set, urlValue_Set, callSet, bind, poke, ret, panic.
  destruct fv; simpl.
  - intros ?; simplify_eq. by eapply (Value_Set_stored _ _ p (VString a)).
  - destruct (ParseBool L a) as [b e]. intros ?; simplify_eq.
    by eapply (Value_Set_stored _ _ p (VBool b)).
  - destruct (ParseInt L a 0 (IntSize L)) as [i e]. intros ?; simplify_eq.
    by eapply (Value_Set_stored _ _ p (VInt i)).
  - destruct (ParseUint L a 0 64) as [i e]. intros ?; simplify_eq.
    by eapply (Value_Set_stored _ _ p (VUint64 i)).
  - destruct (ParseInt L a 0 64) as [i e]. intros ?; simplify_eq.
    by eapply (Value_Set_stored _ _ p (VInt64 i)).
  - destruct (ParseFloat L a 64) as [i e]. intros ?; simplify_eq.
    by eapply (Value_Set_stored _ _ p (VFloat64 i)).
  - destruct (ParseDuration L a) as [i e]. intros ?; simplify_eq.
    by eapply (Value_Set_stored _ _ p (VDuration i)).
  - destruct (url_Parse L a) as [[x|] [e|]]; intros ?; simplify_eq;
      try (by apply Value_Set_same).
    by eapply (Value_Set_stored _ _ u (VURL x)).
  - destruct (heap (mem s) !! addr) as [obj|]; [|intros ?; simplify_eq; by apply Value_Set_same].
    destruct (vSet v a obj) as [obj' e]. intros ?; simplify_eq.
    by eapply Value_Set_called.
Qed.

Lemma failf_cases e s :
  failf e s = (Done (Some e), s) ∧ errorHandling (fs s) = ContinueOnError
  ∨ (∃ code, failf e s = (Exit code, s)) ∧ errorHandling (fs s) = ExitOnError
  ∨ (∃ msg, failf e s = (Panic msg, s)) ∧ errorHandling (fs s) = PanicOnError.
Proof. unfold failf. destruct (errorHandling (fs s)); eauto 6. Qed.

(** One round of the loop of [Parse]: it stops, it fails, or it sets one
    defined flag and goes on with the arguments that are left. *)
Lemma Parse_step L a rest st :
  Parse L (a :: rest) st = (Done None, st)
  ∨ (∃ e, Parse L (a :: rest) st = failf e st)
  ∨ (∃ name fl v rest' (wrap : error → error),
       formal (fs st) !! name = Some fl
       ∧ (length rest' ≤ length rest)%nat
       ∧ Parse L (a :: rest) st
         = (err <- Value_Set L (flValue fl) v ;;
            match err with
            | Some e => failf (wrap e)
            | None => Parse L rest'
            end) st).
Proof.
  simpl. destruct (splitArgument a) as [| | |name value]; eauto.
  destruct (formal (fs st) !! name) as [fl|] eqn:Hf.
  - destruct (IsBoolFlag (flValue fl)).
    + right. right. destruct value as [v|].
      * exists name, fl, v, rest, (invalidBooleanValue v name). by split_and!.
      * exists name, fl, "true", rest, (invalidBooleanFlag name). by split_and!.
    + destruct value as [v|].
      * right. right.
        exists name, fl, v, rest, (invalidFlagValue v name). by split_and!.
      * destruct rest as [|v rest'].
        -- right. left. by eexists.
        -- right. right. exists name, fl, v, rest', (invalidFlagValue v name).
           split_and!; [done|simpl; lia|done].
  - right. left. destruct (_ || _); eauto.
Qed.

(** What every round of [Parse] keeps holds for the whole of it: a property
    of the state that setting a defined flag preserves holds at the end, the
    flag set is the one [Parse] started with, and the process exits only
    under [ExitOnError]. *)
Lemma Parse_invariant L (Q : state → Prop) args s r s' :
  (∀ name fl a st r1 st1,
     Q st → fs st = fs s → formal (fs s) !! name = Some fl →
     Value_Set L (flValue fl) a st = (r1, st1) → Q st1) →
  Q s → Parse L args s = (r, s') →
  Q s' ∧ fs s' = fs s
  ∧ (∀ code, r = Exit code → errorHandling (fs s) = ExitOnError).
Proof.
  intros Hstep.
  assert (∀ n args st r s',
            (length args ≤ n)%nat → Q st → fs st = fs s →
            Parse L args st = (r, s') →
            Q s' ∧ fs s' = fs s
            ∧ (∀ code, r = Exit code → errorHandling (fs s) = ExitOnError)) as Hind.
  { clear r s' args. intros n.
    induction n as [|n IH]; intros args st r s' Hlen HQ Hfs Hrun.
    - destruct args; [|simpl in Hlen; lia]. simpl in Hrun. unfold ret in Hrun.
      by simplify_eq.
    - destruct args as [|a rest]; [simpl in Hrun; unfold ret in Hrun; by simplify_eq|].
      destruct (Parse_step L a rest st)
        as [Hstop|[[e Hfail]|(name & fl & v & rest' & wrap & Hf & Hle & Hgo)]].
      + rewrite Hstop in Hrun. by simplify_eq.
      + rewrite Hfail in Hrun.
        destruct (failf_cases e st) as [[He Hm]|[[[c He] Hm]|[[msg He] Hm]]];
          rewrite He in Hrun; simplify_eq; split_and!; try done.
        intros _ _. by rewrite <- Hfs.
      + rewrite Hgo in Hrun. unfold bind in Hrun.
        destruct (Value_Set L (flValue fl) v st) as [r1 st1] eqn:Hset.
        assert (Q st1) as HQ1 by (eapply Hstep; try done; by rewrite <- Hfs).
        assert (fs st1 = fs s ∧ ∀ code, r1 ≠ Exit code) as [Hfs1 Hnoexit].
        { apply Value_Set_sound in Hset. by inversion Hset; subst. }
        destruct r1 as [[e|]| |c]; try (by simplify_eq).
        * destruct (failf_cases (wrap e) st1) as [[He Hm]|[[[c He] Hm]|[[msg He] Hm]]];
            rewrite He in Hrun; simplify_eq; split_and!; try done.
          intros _ _. by rewrite <- Hfs1.
        * eapply (IH rest' st1); try done. simpl in Hlen. lia.
        * by destruct (Hnoexit c). }
  intros HQ Hrun. by eapply (Hind (length args) args s).
Qed.

(** ** The flags a loop without error defines *)

Lemma set_Done_cases L env o s r s' :
  set L env o s = (Done r, s') →
  (∃ ty, iface o = VOther ty ∧ r = Some (unsupportedType ty) ∧ s' = s)
  ∨ (∃ fv, flagValueOf (iface o) (ptr o) = Some fv
           ∧ registrable (flagName o) (fs s) = true
           ∧ fs s' = register fv (flagName o) (flagDesc o) (fs s)).
Proof.
  intros Hset. apply set_sound in Hset.
  inversion Hset; subst.
  - left. by exists ty.
  - right. by exists fv.
  - right. exists (userValue ty u addr). split_and!; try done.
    match goal with H : iface _ = _ |- _ => by rewrite H end.
Qed.

Lemma setAll_no_exit L env opts s code s' :
  setAll L env opts s ≠ (Exit code, s').
Proof.
  revert s. induction opts as [|o opts IH]; intros s; [done|].
  rewrite setAll_cons.
  destruct (set L env o s) as [[[e|]| |c] s1] eqn:Hset; try done.
  by apply set_no_exit in Hset.
Qed.

(** The flag names of a loop that ends without an error are free in the
    flag set it starts with and different from each other, and the flag set
    it ends with holds the flags of the start and one flag for each option,
    bound to the option's field. *)
Lemma setAll_success_inv L env opts s s' :
  setAll L env opts s = (Done None, s') →
  NoDup (flagName <$> opts)
  ∧ (∀ o, o ∈ opts → registrable (flagName o) (fs s) = true)
  ∧ (∀ n fl,
       formal (fs s') !! n = Some fl ↔
       formal (fs s) !! n = Some fl
       ∨ ∃ o fv, o ∈ opts ∧ flagValueOf (iface o) (ptr o) = Some fv
                 ∧ n = flagName o ∧ fl = mkFlag (flagName o) (flagDesc o) fv).
Proof.
  revert s. induction opts as [|o opts IH]; intros s Hrun.
  - cbv [setAll ret] in Hrun. simplify_eq. split_and!.
    + constructor.
    + by intros o ?%elem_of_nil.
    + intros n fl. split; [by left|].
      intros [|(o & fv & ?%elem_of_nil & _)]; done.
  - rewrite setAll_cons in Hrun.
    destruct (set L env o s) as [[[e|]| |] s1] eqn:Hset; simplify_eq.
    destruct (set_Done_cases _ _ _ _ _ _ Hset)
      as [(ty & _ & ? & _)|(fv & Hfv & Hr & Hfs)]; [done|].
    destruct (IH s1 Hrun) as (Hnd & Hreg & Hformal).
    assert (formal (fs s) !! flagName o = None) as Hfree.
    { unfold registrable in Hr. apply andb_prop in Hr as [_ Hr].
      by destruct (formal (fs s) !! flagName o). }
    assert (∀ o2, o2 ∈ opts → flagName o2 ≠ flagName o
                              ∧ registrable (flagName o2) (fs s) = true) as Hrest.
    { intros o2 Ho2. specialize (Hreg o2 Ho2).
      unfold registrable in *. rewrite Hfs in Hreg. simpl in Hreg.
      destruct (decide (flagName o2 = flagName o)) as [Heq|Hne].
      - rewrite Heq, lookup_insert_eq in Hreg. by rewrite andb_false_r in Hreg.
      - split; [done|]. by rewrite lookup_insert_ne in Hreg. }
    split_and!.
    + rewrite fmap_cons. constructor; [|done].
      intros (o2 & Heq & Ho2)%list_elem_of_fmap.
      destruct (Hrest o2 Ho2) as [Hne _]. congruence.
    + intros o2 [->|Ho2]%elem_of_cons; [done|]. by apply Hrest.
    + intros n fl. rewrite Hformal, Hfs. simpl. split.
      * intros [Hl|(o2 & fv2 & Ho2 & Hfv2 & -> & ->)].
        -- destruct (decide (n = flagName o)) as [->|Hne].
           ++ rewrite lookup_insert_eq in Hl. simplify_eq.
              right. exists o, fv. split_and!; try done. left.
           ++ rewrite lookup_insert_ne in Hl by done. by left.
        -- right. exists o2, fv2. split_and!; try done. by right.
      * intros [Hl|(o2 & fv2 & [->|Ho2]%elem_of_cons & Hfv2 & -> & ->)].
        -- left. rewrite lookup_insert_ne; [done|]. intros <-. congruence.
        -- left. simplify_eq. apply lookup_insert_eq.
        -- right. by exists o2, fv2.
Qed.

(** ** Load, for any outcome *)

Lemma Load_not_struct L env osArgs prefix config flags m :
  ValueOf config ≠ ofPtr ofStruct →
  Load L env osArgs prefix config flags m
  = (Done (Some (configShape (ifaceType config))), m, flags).
Proof. intros H. unfold Load. by rewrite inferOptions_not_struct. Qed.

Lemma recognised_iff typ :
  recognised typ = true ↔
  CanSet typ = true ∧ Tag_Get (Tag typ) tagPrefix ≠ EmptyString.
Proof.
  unfold recognised. rewrite andb_true_iff, negb_true_iff.
  destruct (Tag_Get (Tag typ) tagPrefix); simpl;
    split; intros [H1 H2]; split; done || congruence.
Qed.

(** The three ways [Load] goes on a pointer to a struct when it is given a
    flag set: the loop does not end well; it does and [os.Args] is empty; it
    does and the arguments are parsed. *)
Lemma Load_flags_cases L env osArgs prefix config f0 m r m' f' :
  ValueOf config = ofPtr ofStruct →
  Load L env osArgs prefix config (Some f0) m = (r, m', f') →
  (∃ s1, setAll L env (inferFields L prefix 0 (record m)) (mkState m f0) = (r, s1)
         ∧ r ≠ Done None ∧ m' = mem s1 ∧ f' = Some (fs s1))
  ∨ (∃ s1, setAll L env (inferFields L prefix 0 (record m)) (mkState m f0)
           = (Done None, s1)
           ∧ osArgs = [] ∧ r = Panic "slice bounds out of range"
           ∧ m' = mem s1 ∧ f' = Some (fs s1))
  ∨ (∃ s1 s2 prog args,
       setAll L env (inferFields L prefix 0 (record m)) (mkState m f0)
       = (Done None, s1)
       ∧ osArgs = prog :: args
       ∧ Parse L args s1 = (r, s2)
       ∧ m' = mem s2 ∧ f' = Some (fs s2)).
Proof.
  intros Hcfg. rewrite Load_struct by done. simpl.
  destruct (setAll L env _ _) as [[[e|]| |c] s1] eqn:Hrun; simpl.
  - intros ?; simplify_eq. left. by exists s1.
  - destruct osArgs as [|prog args].
    + intros ?; simplify_eq. right. left. by exists s1.
    + destruct (Parse L args s1) as [r2 s2] eqn:Hp. intros ?; simplify_eq.
      right. right. by exists s1, s2, prog, args.
  - intros ?; simplify_eq. left. by exists s1.
  - intros ?; simplify_eq. left. by exists s1.
Qed.

Lemma set_fsName L env o s r s' :
  set L env o s = (r, s') → fsName (fs s') = fsName (fs s).
Proof.
  intros Hset. apply set_sound in Hset. by inversion Hset; subst.
Qed.

Lemma setAll_fsName L env opts s r s' :
  setAll L env opts s = (r, s') → fsName (fs s') = fsName (fs s).
Proof.
  revert s. induction opts as [|o opts IH]; intros s Hrun.
  - setAll_nil Hrun.
  - rewrite setAll_cons in Hrun.
    destruct (set L env o s) as [[[e|]| |] s1] eqn:Hset; simplify_eq.
    all: try by eapply set_fsName.
    rewrite (IH _ Hrun). by eapply set_fsName.
Qed.

Lemma Parse_fs L args s r s' : Parse L args s = (r, s') → fs s' = fs s.
Proof.
  intros Hp.
  by destruct (Parse_invariant L (λ _, True) args s r s' ltac:(done) I Hp) as (_ & ? & _).
Qed.

(** ** Shapes *)

Lemma keepsShapes_refl m : keepsShapes m m.
Proof. split; [done|]. intros i typ d Hi. by exists d. Qed.

Lemma keepsShapes_poke m m1 p v :
  keepsShapes m m1 → inPlace m p (shapeOf v) → keepsShapes m (pokeMem p v m1).
Proof.
  intros [Hlen Hk] Hp. split.
  - unfold pokeMem; simpl. by rewrite length_alter.
  - intros i typ d Hi. destruct (Hk i typ d Hi) as (d' & Hi' & Hs & Hsame).
    destruct (decide (i = p)) as [->|Hne].
    + destruct Hp as [Hout|(typ2 & d2 & Hp & Hr & Hb & Hsh)].
      * apply lookup_lt_Some in Hi. lia.
      * simplify_eq. exists v. split_and!.
        -- by apply pokeMem_lookup with d'.
        -- done.
        -- intros [?|?]; congruence.
    + exists d'. split_and!; try done.
      unfold pokeMem; simpl. by rewrite list_lookup_alter_ne.
Qed.

Lemma parseAs_shape L x s v err :
  parseAs L x s = Some (v, err) → shapeOf v = shapeOf x ∧ isBuiltin x = true.
Proof.
  destruct x; simpl; intros H; try discriminate.
  all: try (destruct (url_Parse L s) as [[u1|] e]).
  all: repeat match goal with
         | H : context [prod_map _ _ ?p] |- _ => destruct p; simpl in H
         end.
  all: by simplify_eq.
Qed.

Lemma flagValueOf_writes x p fv :
  flagValueOf x p = Some fv →
  (isBuiltin x = true ∧ writes fv = Some p ∧ shapeWritten fv = Some (shapeOf x))
  ∨ (writes fv = None ∧ shapeWritten fv = None).
Proof. destruct x; simpl; intros H; simplify_eq; auto. Qed.

(** [set] on the option of a recognised field keeps the shapes and the
    flags in place. *)
Lemma set_keepsShapes L env prefix m i typ d s r s' :
  record m !! i = Some (typ, d) → recognised typ = true →
  keepsShapes m (mem s) → boundInPlace m (fs s) →
  set L env (descriptor L prefix i typ d) s = (r, s') →
  keepsShapes m (mem s') ∧ boundInPlace m (fs s').
Proof.
  intros Hi Hr Hk Hb Hset. apply set_sound in Hset.
  assert (∀ fv, flagValueOf d i = Some fv →
                boundInPlace m (register fv (Tag_Get (Tag typ) tagPrefix) EmptyString (fs s)))
    as Hreg.
  { intros fv Hfv n fl p sh Hn Hw Hsh. simpl in Hn.
    destruct (decide (n = Tag_Get (Tag typ) tagPrefix)) as [->|Hne].
    - rewrite lookup_insert_eq in Hn. simplify_eq. simpl in *.
      destruct (flagValueOf_writes _ _ _ Hfv) as [(Hbi & Hw' & Hsh')|[Hw' _]];
        [|congruence].
      simplify_eq. right. by exists typ, d.
    - rewrite lookup_insert_ne in Hn by done. by eapply Hb. }
  assert (∀ v err, parseAs L d (Getenv env (envVar (descriptor L prefix i typ d)))
                   = Some (v, err) →
                   keepsShapes m (pokeMem i v (mem s))) as Hpoke.
  { intros v err [Hs Hbi]%parseAs_shape. apply keepsShapes_poke; [done|].
    right. by exists typ, d. }
  inversion Hset as [ty Hty|u0 err Hty Hu|ty u addr Hty Hh|v err fv Hp Hfv Hok
                     |v err msg Hp Hok|ty u addr obj Hty Hh Hok
                     |ty u addr obj msg Hty Hh Hok]; subst; try done.
  - split; [by eapply Hpoke|by apply Hreg].
  - split; [by eapply Hpoke|done].
  - split; [done|]. apply Hreg. simpl in Hty. by rewrite Hty.
Qed.

Lemma setAll_keepsShapes L env prefix m opts s r s' :
  (∀ o, o ∈ opts → ∃ i typ d, record m !! i = Some (typ, d)
                              ∧ recognised typ = true
                              ∧ o = descriptor L prefix i typ d) →
  keepsShapes m (mem s) → boundInPlace m (fs s) →
  setAll L env opts s = (r, s') →
  keepsShapes m (mem s') ∧ boundInPlace m (fs s').
Proof.
  revert s. induction opts as [|o opts IH]; intros s Hopts Hk Hb Hrun.
  - cbv [setAll ret] in Hrun. by simplify_eq.
  - rewrite setAll_cons in Hrun.
    destruct (Hopts o) as (i & typ & d & Hi & Hr & ->); [left|].
    destruct (set L env _ s) as [r1 s1] eqn:Hset.
    destruct (set_keepsShapes _ _ _ _ _ _ _ _ _ _ Hi Hr Hk Hb Hset) as [Hk1 Hb1].
    destruct r1 as [[e|]| |c]; simplify_eq; try done.
    eapply IH; try done. intros o Ho. apply Hopts. by right.
Qed.

Lemma Value_Set_keepsShapes L m fl a s r s' :
  keepsShapes m (mem s) →
  (∀ p sh, writes (flValue fl) = Some p → shapeWritten (flValue fl) = Some sh →
           inPlace m p sh) →
  Value_Set L (flValue fl) a s = (r, s') →
  keepsShapes m (mem s').
Proof.
  intros Hk Hb Hset. apply Value_Set_sound in Hset.
  inversion Hset; subst; simpl; try done.
  apply keepsShapes_poke; [done|]. by apply Hb.
Qed.

(** ** Running [set] again *)

Lemma set_sameShape L env o1 o2 s :
  sameShape o1 o2 → (∀ ty u a, iface o1 ≠ VValue ty u a) →
  set L env o2 s = set L env o1 s.
Proof.
  destruct o1 as [x1 p1 e1 n1 d1], o2 as [x2 p2 e2 n2 d2].
  intros (Hp & He & Hn & Hd & Hs) Hnv. simpl in *. subst.
  destruct x1, x2; try discriminate; try done.
  - by destruct (Hnv ty v addr).
  - simpl in Hs. by simplify_eq.
Qed.

Lemma Var_mem_indep fv name usage A B f :
  Var fv name usage (mkState B f)
  = ((Var fv name usage (mkState A f)).1,
     mkState B (fs (Var fv name usage (mkState A f)).2)).
Proof. unfold Var; simpl. by repeat case_match. Qed.

Lemma Var_mem fv name usage s :
  mem (Var fv name usage s).2 = mem s.
Proof. unfold Var. by repeat case_match. Qed.

Lemma pokeMem_absorb p v A B :
  record B !! p = record (pokeMem p v A) !! p → pokeMem p v B = B.
Proof.
  destruct B as [rb hb]. unfold pokeMem; simpl. intros H. f_equal.
  apply list_eq. intros i. destruct (decide (i = p)) as [->|Hne].
  - rewrite list_lookup_alter_eq, H, list_lookup_alter_eq.
    by destruct (record A !! p) as [[t d]|].
  - by rewrite list_lookup_alter_ne.
Qed.

(** A call of [set] for a field that is no user value can be repeated on
    any memory that holds at the field what the call left there: the
    result is the same, and the memory stays. *)
Lemma set_again L env o A B f r s1 :
  (∀ ty u a, iface o ≠ VValue ty u a) →
  set L env o (mkState A f) = (r, s1) →
  record B !! ptr o = record (mem s1) !! ptr o →
  set L env o (mkState B f) = (r, mkState B (fs s1)).
Proof.
  intros Hnv Hset HB.
  destruct (parseAs_cases L (iface o) (Getenv env (envVar o)))
    as [(v & err & Hp)|[(u0 & err & Hi & Hp)|[(ty & u & a & Hi)|(ty & Hi)]]].
  - destruct (parseAs_builtin _ _ _ _ Hp) as [_ [fv Hfv]].
    rewrite (set_builtin L env o v err (fv (ptr o))) in Hset by done.
    rewrite (set_builtin L env o v err (fv (ptr o))) by done.
    unfold bind, poke in Hset |- *. simpl in Hset |- *.
    rewrite (Var_mem_indep _ _ _ (pokeMem (ptr o) v A) (pokeMem (ptr o) v B)).
    pose proof (Var_mem (fv (ptr o)) (flagName o) (flagDesc o)
                  (mkState (pokeMem (ptr o) v A) f)) as Hm.
    destruct (Var (fv (ptr o)) (flagName o) (flagDesc o)
                (mkState (pokeMem (ptr o) v A) f)) as [[[]|msg|c] s2];
      simpl in *; rewrite ?report_ret in Hset |- *; simplify_eq.
    all: rewrite Hm in HB; by rewrite (pokeMem_absorb _ _ A B).
  - rewrite (set_url_nil _ _ _ _ _ _ Hi Hp) in Hset.
    rewrite (set_url_nil _ _ _ _ _ _ Hi Hp). by simplify_eq.
  - by destruct (Hnv ty u a).
  - rewrite (set_other _ _ _ _ _ Hi) in Hset.
    rewrite (set_other _ _ _ _ _ Hi). by simplify_eq.
Qed.

(** The loop of [Load] can be repeated on the memory it left. *)
Lemma setAll_again L env opts1 opts2 s r s' :
  Forall2 sameShape opts1 opts2 →
  NoDup (ptr <$> opts1) →
  (∀ o ty u a, o ∈ opts1 → iface o ≠ VValue ty u a) →
  setAll L env opts1 s = (r, s') →
  setAll L env opts2 (mkState (mem s') (fs s)) = (r, s').
Proof.
  intros Hsame. revert s.
  induction Hsame as [|o1 o2 opts1 opts2 Ho Hopts IH]; intros s Hnd Hnv Hrun.
  - cbv [setAll ret] in Hrun |- *. simplify_eq. by destruct s'.
  - rewrite setAll_cons in Hrun |- *.
    apply NoDup_cons in Hnd as [Hnotin Hnd]. fold (fmap ptr opts1) in Hnotin, Hnd.
    assert (∀ ty u a, iface o1 ≠ VValue ty u a) as Hnv1.
    { intros ty u a. apply Hnv. left. }
    rewrite (set_sameShape L env o1 o2) by done.
    destruct (set L env o1 s) as [r1 s1] eqn:Hset.
    assert (record (mem s') !! ptr o1 = record (mem s1) !! ptr o1) as Hframe.
    { destruct r1 as [[e|]| |c]; simplify_eq; try done.
      by eapply setAll_record_frame. }
    destruct s as [A f]. simpl.
    rewrite (set_again L env o1 A (mem s') f r1 s1 Hnv1 Hset Hframe).
    destruct r1 as [[e|]| |c]; simplify_eq; try by destruct s'.
    apply (IH s1); try done.
    intros o ty u a Ho'. apply Hnv. by right.
Qed.

Lemma inferFields_sameShape L prefix i rec1 rec2 :
  Forall2 (λ f1 f2, f1.1 = f2.1 ∧ shapeOf f1.2 = shapeOf f2.2) rec1 rec2 →
  Forall2 sameShape (inferFields L prefix i rec1) (inferFields L prefix i rec2).
Proof.
  intros H. revert i.
  induction H as [|[t1 d1] [t2 d2] rec1 rec2 [Ht Hd] Hrec IH]; intros i; [constructor|].
  simpl in Ht, Hd. subst t2. rewrite !inferFields_cons.
  apply Forall2_app; [|apply IH].
  destruct (recognised t1); constructor; [|constructor].
  by split_and!.
Qed.

(** ** Several flags on the command line *)

Lemma recognised_tag typ :
  recognised typ = true →
  CanSet typ = true ∧ Tag_Get (Tag typ) tagPrefix ≠ EmptyString.
Proof.
  unfold recognised. intros [Hc Ht]%andb_true_iff. split; [done|].
  intros Heq. by rewrite Heq in Ht.
Qed.

(** [Parse] at an argument [-name=v] for a defined flag. *)
Lemma Parse_cons_equals L name usage fv v rest s :
  name ≠ EmptyString →
  beginsWithDash name = false →
  containsByte "="%char name = false →
  formal (fs s) !! name = Some (mkFlag name usage fv) →
  Parse L (("-" +:+ name +:+ "=" +:+ v) :: rest) s
  = (err <- Value_Set L fv v ;;
     match err with
     | Some e => failf (if IsBoolFlag fv then invalidBooleanValue v name e
                        else invalidFlagValue v name e)
     | None => Parse L rest
     end) s.
Proof.
  intros Hn Hd He Hf. cbn [Parse].
  rewrite splitArgument_equals by done. rewrite Hf. simpl.
  by destruct (IsBoolFlag fv).
Qed.

(** After a loop without error the flag of every recognised field is
    defined under its tag, which is a name [Parse] can be given. *)
Lemma setAll_flag_defined L env prefix m f0 s1 i typ d :
  setAll L env (inferFields L prefix 0 (record m)) (mkState m f0) = (Done None, s1) →
  record m !! i = Some (typ, d) → recognised typ = true →
  ∃ fv, flagValueOf d i = Some fv
        ∧ formal (fs s1) !! Tag_Get (Tag typ) tagPrefix
          = Some (mkFlag (Tag_Get (Tag typ) tagPrefix) EmptyString fv)
        ∧ Tag_Get (Tag typ) tagPrefix ≠ EmptyString
        ∧ beginsWithDash (Tag_Get (Tag typ) tagPrefix) = false
        ∧ containsByte "="%char (Tag_Get (Tag typ) tagPrefix) = false.
Proof.
  intros Hrun Hi Hr. destruct (recognised_tag _ Hr) as [Hc Ht].
  destruct (setAll_registered L env _ _ _ (descriptor L prefix i typ d) Hrun)
    as (fv & Hfv & Hf & Hd & He).
  { by apply recognised_descriptor. }
  exists fv. by split_and!.
Qed.


(** * The claims *)

(** C1: a field whose environment variable is empty or blank.  [Load]
    returns no error, and every field of a built-in kind has lost the value
    the caller had put in the struct: it holds what the parser returned for
    the blank text. *)
Theorem Load_blank_environment_overwrites :
  let env : gmap string string :=
    list_to_map [ ("APP_STRING", EmptyString); ("APP_BOOL", "  "); ("APP_INT", " ") ] in
  Load testLib env ["prog"] "APP" (ptrToStruct "*structopt.Config") None
    (mkMemory Config [])
  = (Done None,
     mkMemory
       [ (optField "String" "string", VString EmptyString);
         (optField "Int" "int", VInt 0);
         (optField "Int64" "int64", VInt64 0);
         (optField "Uint64" "uint64", VUint64 0);
         (optField "Float64" "float64", VFloat64 0);
         (optField "Duration" "duration", VDuration 0);
         (optField "URL" "url", VURL emptyURL);
         (optField "Bool" "bool", VBool false) ] [],
     None).
Proof. vm_compute. reflexivity. Qed.

(** C2: the environment variable of a tag with separators.  The replacement
    of the separators is computed and dropped: for the prefix [APP] the tag
    [query.timeout] gets [APP_QUERY.TIMEOUT], where the package's
    documentation names [APP_QUERY_TIMEOUT], and the tag [mac-address] gets
    [APP_MAC-ADDRESS]. *)
Theorem inferOptions_keeps_separators :
  let m :=
    mkMemory [ (optField "QueryTimeout" "query.timeout", VDuration 0);
               (optField "MACAddress" "mac-address", VString EmptyString);
               (optField "UserName" "username", VString EmptyString) ] [] in
  envVar <$> (inferOptions testLib "APP" (ptrToStruct "*main.Config") m).1
  = ["APP_QUERY.TIMEOUT"; "APP_MAC-ADDRESS"; "APP_USERNAME"].
Proof. vm_compute. reflexivity. Qed.

(** C3: the precedence chain, for the recognised field [i] of the record,
    with tag [tag] and environment text [E].
    - Environment over struct value: when no flag is given and [Load]
      returns no error, a field of a built-in kind whose environment text
      parses holds the parsed value, and a user value that no other field
      points to is what its [Set] made of the object.
    - Flag over environment: when [Load] returns no error without
      arguments, then with the one argument [-tag=a] (or the two arguments
      [-tag a], for a flag that is not boolean) it returns no error either,
      and the field holds what the flag's parser returned for [a], whatever
      the environment had put there; a user value is what its [Set] made of
      the object for [a].  A user value whose type says it is a boolean flag
      takes no second argument: given as [-tag], it is what its [Set] made
      of the object for the text [true].
    The options belong to fields of concrete types. *)
Theorem Load_precedence L env prefix config m i typ d :
  ValueOf config = ofPtr ofStruct →
  concreteFields m = true →
  record m !! i = Some (typ, d) →
  CanSet typ = true →
  Tag_Get (Tag typ) tagPrefix ≠ EmptyString →
  let tag := Tag_Get (Tag typ) tagPrefix in
  let E := Getenv env (prefix +:+ envSep +:+ ToUpper L tag) in
  (∀ osArgs flags v m1 f1,
     flags = None ∨ tail osArgs = [] →
     parseAs L d E = Some (v, None) →
     Load L env osArgs prefix config flags m = (Done None, m1, f1) →
     record m1 !! i = Some (typ, v))
  ∧ (∀ osArgs flags ty u addr obj obj' m1 f1,
       flags = None ∨ tail osArgs = [] →
       d = VValue ty u addr →
       heap m !! addr = Some obj →
       vSet u E obj = (obj', None) →
       (∀ j typ' ty' u',
          j ≠ i → record m !! j = Some (typ', VValue ty' u' addr) →
          recognised typ' = false) →
       Load L env osArgs prefix config flags m = (Done None, m1, f1) →
       heap m1 !! addr = Some obj')
  ∧ (∀ prog f0 a v m1 f1,
       flagParseAs L d a = Some (v, None) →
       Load L env [prog] prefix config (Some f0) m = (Done None, m1, f1) →
       Load L env [prog; "-" +:+ tag +:+ "=" +:+ a] prefix config (Some f0) m
       = (Done None, pokeMem i v m1, f1)
       ∧ (isBool d = false →
          Load L env [prog; "-" +:+ tag; a] prefix config (Some f0) m
          = (Done None, pokeMem i v m1, f1))
       ∧ record (pokeMem i v m1) !! i = Some (typ, v))
  ∧ (∀ prog f0 a ty u addr obj1 obj' m1 f1,
       d = VValue ty u addr →
       Load L env [prog] prefix config (Some f0) m = (Done None, m1, f1) →
       heap m1 !! addr = Some obj1 →
       vSet u a obj1 = (obj', None) →
       Load L env [prog; "-" +:+ tag +:+ "=" +:+ a] prefix config (Some f0) m
       = (Done None, mkMemory (record m1) (<[addr := obj']> (heap m1)), f1)
       ∧ (vIsBoolFlag u = false →
          Load L env [prog; "-" +:+ tag; a] prefix config (Some f0) m
          = (Done None, mkMemory (record m1) (<[addr := obj']> (heap m1)), f1)))
  ∧ (∀ prog f0 ty u addr obj1 obj' m1 f1,
       d = VValue ty u addr →
       vIsBoolFlag u = true →
       Load L env [prog] prefix config (Some f0) m = (Done None, m1, f1) →
       heap m1 !! addr = Some obj1 →
       vSet u "true" obj1 = (obj', None) →
       Load L env [prog; "-" +:+ tag] prefix config (Some f0) m
       = (Done None, mkMemory (record m1) (<[addr := obj']> (heap m1)), f1)).
Proof.
  intros Hcfg _ Hi Hcan Htag tag E.
  pose proof (recognised_descriptor L prefix m i typ d Hi Hcan Htag) as Ho.
  pose proof (inferFields_NoDup L prefix 0 (record m)) as Hnd.
  set (o := descriptor L prefix i typ d) in *.
  split_and!.
  - intros osArgs flags v m1 f1 Hargs Hp Hload.
    destruct (Load_no_arguments_inv _ _ _ _ _ _ _ _ _ Hcfg Hargs Hload)
      as (s1 & Hrun & -> & ->).
    by eapply (setAll_stored L env _ (mkState m _) s1 o).
  - intros osArgs flags ty u addr obj obj' m1 f1 Hargs -> Hh Hs Halias Hload.
    destruct (Load_no_arguments_inv _ _ _ _ _ _ _ _ _ Hcfg Hargs Hload)
      as (s1 & Hrun & -> & ->).
    rewrite (setAll_called L env _ (mkState m _) s1 o ty u addr obj Hrun Hnd Ho);
      try done.
    + simpl. fold tag. fold E. by rewrite Hs.
    + intros o' ty' u' (j & typ' & d' & Hj & Hr & ->)%elem_of_inferFields Hptr Hval.
      simpl in Hptr, Hval. subst d'.
      rewrite (Halias j typ' ty' u') in Hr; done.
  - intros prog f0 a v m1 f1 Hp Hload.
    destruct (Load_no_arguments_inv L env [prog] prefix config (Some f0) m m1 f1
                Hcfg (or_intror eq_refl) Hload)
      as (s1 & Hrun & -> & ->). simpl in Hrun.
    destruct (setAll_registered _ _ _ _ _ _ Hrun Ho) as (fv & Hfv & Hf & Hd & He).
    simpl in Hfv, Hf, Hd, He. fold tag in Hf, Hd, He.
    destruct (setAll_keeps_declaration _ _ _ _ _ _ i typ d Hrun Hi) as [d' Hi'].
    split_and!.
    + rewrite (Load_arguments _ _ _ _ _ _ _ _ s1 Hcfg Hrun).
      rewrite (Parse_one_equals L tag EmptyString fv a s1) by done.
      by rewrite (setFlag_valid L d i a v fv tag s1 Hp Hfv).
    + intros Hb.
      rewrite (Load_arguments _ _ _ _ _ _ _ _ s1 Hcfg Hrun).
      rewrite (Parse_one_plain L tag EmptyString fv a s1); try done.
      * by rewrite (setFlag_valid L d i a v fv tag s1 Hp Hfv).
      * destruct d; simplify_eq/=; done.
    + by eapply pokeMem_lookup.
  - intros prog f0 a ty u addr obj1 obj' m1 f1 -> Hload Hh Hs.
    destruct (Load_no_arguments_inv L env [prog] prefix config (Some f0) m m1 f1
                Hcfg (or_intror eq_refl) Hload)
      as (s1 & Hrun & -> & ->). simpl in Hrun.
    destruct (setAll_registered _ _ _ _ _ _ Hrun Ho) as (fv & Hfv & Hf & Hd & He).
    simpl in Hfv, Hf, Hd, He. fold tag in Hf, Hd, He. simplify_eq.
    split.
    + rewrite (Load_arguments _ _ _ _ _ _ _ _ s1 Hcfg Hrun).
      rewrite (Parse_one_equals L tag EmptyString _ a s1) by done.
      by rewrite (setFlag_user L ty u addr a tag obj1 obj' s1 Hh Hs).
    + intros Hb.
      rewrite (Load_arguments _ _ _ _ _ _ _ _ s1 Hcfg Hrun).
      rewrite (Parse_one_plain L tag EmptyString _ a s1) by done.
      by rewrite (setFlag_user L ty u addr a tag obj1 obj' s1 Hh Hs).
  - intros prog f0 ty u addr obj1 obj' m1 f1 -> Hb Hload Hh Hs.
    destruct (Load_no_arguments_inv L env [prog] prefix config (Some f0) m m1 f1
                Hcfg (or_intror eq_refl) Hload)
      as (s1 & Hrun & -> & ->). simpl in Hrun.
    destruct (setAll_registered _ _ _ _ _ _ Hrun Ho) as (fv & Hfv & Hf & Hd & He).
    simpl in Hfv, Hf, Hd, He. fold tag in Hf, Hd, He. simplify_eq.
    rewrite (Load_arguments _ _ _ _ _ _ _ _ s1 Hcfg Hrun).
    cbn [Parse]. rewrite splitArgument_plain by done. rewrite Hf.
    cbn [flValue IsBoolFlag]. rewrite Hb.
    unfold bind, Value_Set, callSet. by rewrite Hh, Hs.
Qed.

Lemma Load_precedence_witness :
  let cfg := ptrToStruct "*structopt.Config" in
  let m := mkMemory Config [] in
  let f0 := NewFlagSet "TestFlags" ContinueOnError in
  let after := Load testLib testEnv ["prog"] "APP" cfg (Some f0) m in
  let macEnv : gmap string string := {[ "APP_MAC.ADDRESS" := "aa:bb:cc:dd:ee:ff" ]} in
  let macAfter := Load testLib macEnv ["prog"] "APP" cfg (Some f0) macTest in
  let swAfter := Load testLib ∅ ["prog"] "APP" cfg (Some f0) switchTest in
  record (Load testLib testEnv ["prog"] "APP" cfg None m).1.2 !! 5%nat
  = Some (optField "Duration" "duration", VDuration 1000000000)
  ∧ Load testLib testEnv ["prog"; "-duration=2s"] "APP" cfg (Some f0) m
    = (Done None, pokeMem 5 (VDuration 2000000000) after.1.2, after.2)
  ∧ Load testLib testEnv ["prog"; "-duration"; "2s"] "APP" cfg (Some f0) m
    = (Done None, pokeMem 5 (VDuration 2000000000) after.1.2, after.2)
  ∧ heap (Load testLib macEnv ["prog"] "APP" cfg None macTest).1.2 !! 0%nat
    = Some [170; 187; 204; 221; 238; 255]
  ∧ Load testLib macEnv ["prog"; "-mac.address"; "ff:ee:dd:cc:bb:aa"] "APP" cfg (Some f0) macTest
    = (Done None,
       mkMemory (record macAfter.1.2)
         (<[0%nat := [255; 238; 221; 204; 187; 170]]> (heap macAfter.1.2)),
       macAfter.2)
  ∧ Load testLib ∅ ["prog"; "-verbose"] "APP" cfg (Some f0) switchTest
    = (Done None,
       mkMemory (record swAfter.1.2) (<[0%nat := [1]]> (heap swAfter.1.2)),
       swAfter.2).
Proof.
  cbv zeta.
  pose (cfg := ptrToStruct "*structopt.Config").
  pose (f0 := NewFlagSet "TestFlags" ContinueOnError).
  pose (macEnv := ({[ "APP_MAC.ADDRESS" := "aa:bb:cc:dd:ee:ff" ]} : gmap string string)).
  pose (noEnv := (∅ : gmap string string)).
  destruct (Load_precedence testLib testEnv "APP" cfg
              (mkMemory Config []) 5 (optField "Duration" "duration") (VDuration 7)
              eq_refl eq_refl eq_refl eq_refl ltac:(discriminate))
    as (Henv & _ & Hflag & _ & _).
  destruct (Load_precedence testLib macEnv "APP" cfg macTest 0
              (optField "MACAddress" "mac.address")
              (VValue "*structopt.macAddr" macAddr 0)
              eq_refl eq_refl eq_refl eq_refl ltac:(discriminate))
    as (_ & Hmac & _ & Hmacflag & _).
  destruct (Load_precedence testLib noEnv "APP" cfg switchTest 0
              (optField "Verbose" "verbose")
              (VValue "*main.switch" switch 0)
              eq_refl eq_refl eq_refl eq_refl ltac:(discriminate))
    as (_ & _ & _ & _ & Hswitch).
  pose proof (Hflag "prog" f0 "2s" (VDuration 2000000000)
                (Load testLib testEnv ["prog"] "APP" cfg (Some f0) (mkMemory Config [])).1.2
                (Load testLib testEnv ["prog"] "APP" cfg (Some f0) (mkMemory Config [])).2
                ltac:(vm_compute; reflexivity) ltac:(vm_compute; reflexivity))
    as (Hequals & Hplain & _).
  pose proof (Hmacflag "prog" f0 "ff:ee:dd:cc:bb:aa" "*structopt.macAddr" macAddr 0%nat
                [170; 187; 204; 221; 238; 255] [255; 238; 221; 204; 187; 170]
                (Load testLib macEnv ["prog"] "APP" cfg (Some f0) macTest).1.2
                (Load testLib macEnv ["prog"] "APP" cfg (Some f0) macTest).2
                eq_refl ltac:(vm_compute; reflexivity) ltac:(vm_compute; reflexivity)
                ltac:(vm_compute; reflexivity))
    as (_ & Hmacplain).
  split_and!.
  - exact (Henv ["prog"] None (VDuration 1000000000)
             (Load testLib testEnv ["prog"] "APP" cfg None (mkMemory Config [])).1.2
             (Load testLib testEnv ["prog"] "APP" cfg None (mkMemory Config [])).2
             (or_introl eq_refl) ltac:(vm_compute; reflexivity)
             ltac:(vm_compute; reflexivity)).
  - exact Hequals.
  - exact (Hplain eq_refl).
  - refine (Hmac ["prog"] None "*structopt.macAddr" macAddr 0%nat []
              [170; 187; 204; 221; 238; 255]
              (Load testLib macEnv ["prog"] "APP" cfg None macTest).1.2
              (Load testLib macEnv ["prog"] "APP" cfg None macTest).2
              (or_introl eq_refl) eq_refl eq_refl ltac:(vm_compute; reflexivity) _
              ltac:(vm_compute; reflexivity)).
    intros j typ' ty' u' Hj Hrec.
    destruct j as [|j]; [exfalso; apply Hj; reflexivity|].
    unfold macTest in Hrec. simpl in Hrec. destruct j; discriminate Hrec.
  - exact (Hmacplain eq_refl).
  - exact (Hswitch "prog" f0 "*main.switch" switch 0%nat [0] [1]
             (Load testLib noEnv ["prog"] "APP" cfg (Some f0) switchTest).1.2
             (Load testLib noEnv ["prog"] "APP" cfg (Some f0) switchTest).2
             eq_refl eq_refl ltac:(vm_compute; reflexivity)
             ltac:(vm_compute; reflexivity) eq_refl).
Defined.

(** C4: a [url.URL] field whose environment variable holds text [url.Parse]
    rejects.  [Load] does not return an error: it panics on the nil URL that
    came with the error. *)
Theorem Load_invalid_url_panics :
  let env : gmap string string := {[ "APP_URL" := ":foo" ]} in
  let m := mkMemory [ (optField "URL" "url", VURL emptyURL) ] [] in
  url_Parse testLib ":foo" = (None, Some (libError "missing protocol scheme"))
  ∧ Load testLib env ["prog"] "APP" (ptrToStruct "*structopt.Test") None m
    = (Panic "nil pointer dereference", m, None).
Proof. vm_compute. split; reflexivity. Qed.

(** C5, as the code has it: a settable field with a non-empty tag that
    holds a value whose type is none of the supported ones makes [Load]
    return the error that names the type, whatever the environment and the
    command line hold, once the fields before it were set without an error;
    the fields after it are not looked at.  The type is the one the switch
    of [set] sees: for a field of a concrete type the declared type of the
    field, for a field of an interface type the type of the value inside,
    [<nil>] when there is none.  The declared type itself is not looked
    at. *)
Theorem Load_unsupported_type
    L env osArgs prefix config flags m fpre typ ty fpost s1 :
  ValueOf config = ofPtr ofStruct →
  record m = fpre ++ (typ, VOther ty) :: fpost →
  CanSet typ = true →
  Tag_Get (Tag typ) tagPrefix ≠ EmptyString →
  setAll L env (inferFields L prefix 0 fpre) (mkState m (flagSetFor prefix flags))
  = (Done None, s1) →
  Load L env osArgs prefix config flags m
  = (Done (Some (unsupportedType ty)), mem s1, callerFlags flags s1).
Proof.
  intros Hcfg Hrec Hcan Htag Hpre.
  rewrite Load_struct, Hrec, inferFields_app, inferFields_cons by done.
  assert (recognised typ = true) as ->.
  { unfold recognised. rewrite Hcan. by destruct (Tag_Get (Tag typ) tagPrefix). }
  rewrite setAll_app, Hpre. simpl app. rewrite setAll_cons.
  by rewrite (set_other L env _ ty).
Qed.

Lemma Load_unsupported_type_witness :
  let m :=
    mkMemory [ (optField "B" "b", VBool false);
               (optField "T" "T", VOther "structopt.T");
               (optField "N" "n", VInt 7) ] [] in
  let anyField := mkField "Any" true [("opt", "any")] InterfaceType in
  let m' :=
    mkMemory [ (optField "B" "b", VBool false);
               (anyField, VOther "<nil>") ] [] in
  Load testLib ∅ ["prog"] "APP" (ptrToStruct "*structopt.Test") None m
  = (Done (Some (unsupportedType "structopt.T")), m, None)
  ∧ Load testLib ∅ ["prog"] "APP" (ptrToStruct "*structopt.Test") None m'
    = (Done (Some (unsupportedType "<nil>")), m', None).
Proof.
  cbv zeta.
  pose (noEnv := (∅ : gmap string string)).
  pose (fB := register (boolValue 0) "b" EmptyString (NewFlagSet "APP" ExitOnError)).
  split.
  - refine (eq_trans
      (Load_unsupported_type testLib noEnv ["prog"] "APP" (ptrToStruct "*structopt.Test")
         None
         (mkMemory [ (optField "B" "b", VBool false);
                     (optField "T" "T", VOther "structopt.T");
                     (optField "N" "n", VInt 7) ] [])
         [(optField "B" "b", VBool false)] (optField "T" "T") "structopt.T"
         [(optField "N" "n", VInt 7)]
         (mkState (mkMemory [ (optField "B" "b", VBool false);
                     (optField "T" "T", VOther "structopt.T");
                     (optField "N" "n", VInt 7) ] []) fB)
         eq_refl eq_refl eq_refl _ _) _).
    + discriminate.
    + vm_compute. reflexivity.
    + reflexivity.
  - refine (eq_trans
      (Load_unsupported_type testLib noEnv ["prog"] "APP" (ptrToStruct "*structopt.Test")
         None
         (mkMemory [ (optField "B" "b", VBool false);
                     (mkField "Any" true [("opt", "any")] InterfaceType,
                      VOther "<nil>") ] [])
         [(optField "B" "b", VBool false)]
         (mkField "Any" true [("opt", "any")] InterfaceType) "<nil>" []
         (mkState (mkMemory [ (optField "B" "b", VBool false);
                     (mkField "Any" true [("opt", "any")] InterfaceType,
                      VOther "<nil>") ] []) fB)
         eq_refl eq_refl eq_refl _ _) _).
    + discriminate.
    + vm_compute. reflexivity.
    + reflexivity.
Defined.

(** C5 as stated fails for a tagged field that is not settable: the field is
    passed over before its type is looked at, and [Load] returns no error. *)
Lemma Load_unsupported_type_unexported :
  let m := mkMemory [ (mkField "t" false [("opt", "T")] Concrete, VOther "structopt.T") ] [] in
  Load testLib ∅ ["prog"] "APP" (ptrToStruct "*structopt.Test") None m
  = (Done None, m, None).
Proof. vm_compute. reflexivity. Qed.

(** C6: an argument that is not a pointer to a struct (a nil interface, a
    value that is no pointer, a nil pointer, a pointer to anything but a
    struct) makes [Load] return the error that names the argument's type;
    the call does not panic, and the memory and the caller's flag set are
    what they were. *)
Theorem Load_rejects_non_struct_pointer
    L env osArgs prefix config flags m :
  ValueOf config ≠ ofPtr ofStruct →
  Load L env osArgs prefix config flags m
  = (Done (Some (configShape (ifaceType config))), m, flags).
Proof.
  intros H. unfold Load. by rewrite inferOptions_not_struct.
Qed.

Lemma Load_rejects_non_struct_pointer_witness :
  let m := mkMemory Config [] in
  Load testLib testEnv ["prog"] "APP" (mkInterface "<nil>" zeroValue) None m
    = (Done (Some (configShape "<nil>")), m, None)
  ∧ Load testLib testEnv ["prog"] "APP" (mkInterface "structopt.Config" ofStruct) None m
    = (Done (Some (configShape "structopt.Config")), m, None)
  ∧ Load testLib testEnv ["prog"] "APP" (mkInterface "*structopt.T" (ofPtr ofOther)) None m
    = (Done (Some (configShape "*structopt.T")), m, None)
  ∧ Load testLib testEnv ["prog"] "APP" (mkInterface "*structopt.Config" (ofPtr zeroValue)) None m
    = (Done (Some (configShape "*structopt.Config")), m, None).
Proof.
  cbv zeta.
  split_and!; apply Load_rejects_non_struct_pointer; discriminate.
Defined.

(** C7: when the options before [o] were set without an error and [set]
    returns an error for [o], [Load] returns that error and nothing else is
    done: the memory is the one [set] left.  In it every earlier field is
    what it was when the loop reached [o] (for a built-in kind: what its
    parser returned for its environment text; for a user value that no
    other option up to [o] points to: the object is what its [Set] made of
    it for its environment text), no later field was written, and no object
    was touched but those the options up to [o] point to.  The options
    belong to fields of concrete types, so that every write stays within
    its field. *)
Theorem Load_stops_at_first_error
    L env osArgs prefix config flags m pre o post s1 e s2 :
  concreteFields m = true →
  inferOptions L prefix config m = (pre ++ o :: post, None) →
  setAll L env pre (mkState m (flagSetFor prefix flags)) = (Done None, s1) →
  set L env o s1 = (Done (Some e), s2) →
  Load L env osArgs prefix config flags m
  = (Done (Some e), mem s2, callerFlags flags s2)
  ∧ (∀ o', o' ∈ pre →
       record (mem s2) !! ptr o' = record (mem s1) !! ptr o')
  ∧ (∀ o' typ d v err,
       o' ∈ pre →
       record m !! ptr o' = Some (typ, d) →
       parseAs L (iface o') (Getenv env (envVar o')) = Some (v, err) →
       record (mem s2) !! ptr o' = Some (typ, v))
  ∧ (∀ o' ty u addr obj,
       o' ∈ pre →
       iface o' = VValue ty u addr →
       heap m !! addr = Some obj →
       (∀ o'' ty' u',
          o'' ∈ pre ++ [o] → ptr o'' ≠ ptr o' → iface o'' ≠ VValue ty' u' addr) →
       heap (mem s2) !! addr = Some (vSet u (Getenv env (envVar o')) obj).1)
  ∧ (∀ o', o' ∈ post →
       record (mem s2) !! ptr o' = record m !! ptr o')
  ∧ (∀ addr,
       (∀ o' ty u, o' ∈ pre ++ [o] → iface o' ≠ VValue ty u addr) →
       heap (mem s2) !! addr = heap m !! addr).
Proof.
  intros _ [Hcfg Hopts]%inferOptions_inv Hpre Hset.
  pose proof (inferFields_NoDup L prefix 0 (record m)) as Hnd.
  rewrite <- Hopts, fmap_app, fmap_cons in Hnd.
  apply NoDup_app in Hnd as (Hnd_pre & Hdisj & Hnd_post).
  apply NoDup_cons in Hnd_post as [Ho_post _].
  assert (∀ o', o' ∈ pre → ptr o' ≠ ptr o) as Hne_pre.
  { intros o' Ho' Heq. eapply (Hdisj (ptr o')).
    - by apply list_elem_of_fmap_2.
    - rewrite Heq. left. }
  assert (∀ o', o' ∈ post → (ptr o' ∉ ptr <$> pre) ∧ ptr o' ≠ ptr o) as Hne_post.
  { intros o' Ho'. split.
    - intros Hin. eapply (Hdisj (ptr o')); [done|].
      right. by apply list_elem_of_fmap_2.
    - intros Heq. apply Ho_post. rewrite <- Heq. by apply list_elem_of_fmap_2. }
  split_and!.
  - rewrite Load_struct, <- Hopts, setAll_app, Hpre, setAll_cons, Hset by done.
    done.
  - intros o' Ho'. eapply set_record_frame; [done|]. by apply Hne_pre.
  - intros o' typ d v err Ho' Hrec Hp.
    rewrite (set_record_frame _ _ _ _ _ _ _ Hset) by (apply Hne_pre; done).
    by eapply (setAll_stored L env pre (mkState m _)).
  - intros o' ty u addr obj Ho' Hv Hh Halias.
    rewrite (set_heap_frame L env o s1 _ s2 addr Hset).
    + apply (setAll_called L env pre (mkState m _) s1 o' ty u addr obj Hpre Hnd_pre
               Ho' Hv); [|done].
      intros o'' ty' u' Ho'' Hptr. apply Halias; [|done].
      apply elem_of_app. by left.
    + intros ty' u'. apply Halias.
      * apply elem_of_app. right. left.
      * intros Heq. by apply (Hne_pre o' Ho').
  - intros o' Ho'. destruct (Hne_post o' Ho') as [Hnotin Hne].
    rewrite (set_record_frame _ _ _ _ _ _ _ Hset) by done.
    by rewrite (setAll_record_frame _ _ _ _ _ _ _ Hpre Hnotin).
  - intros addr Hnone.
    rewrite (set_heap_frame L env o s1 _ s2 addr Hset).
    + apply (setAll_heap_frame L env pre (mkState m _) _ s1 addr Hpre).
      intros o' ty u Ho'. apply Hnone. apply elem_of_app. by left.
    + intros ty u. apply Hnone. apply elem_of_app. right. left.
Qed.

Lemma Load_stops_at_first_error_witness :
  let m :=
    mkMemory [ (optField "B" "b", VBool false);
               (optField "M" "mac", VValue "*structopt.macAddr" macAddr 0);
               (optField "D" "d", VDuration 7);
               (optField "N" "n", VInt 7) ] [ [] ] in
  let env : gmap string string :=
    list_to_map [("APP_B", "true"); ("APP_MAC", "aa:bb:cc:dd:ee:ff");
                 ("APP_D", "foo"); ("APP_N", "25")] in
  let out := Load testLib env ["prog"] "APP" (ptrToStruct "*structopt.Test") None m in
  out
  = (Done (Some (parseError "APP_D" "foo" (libError "time: invalid duration"))),
     mkMemory [ (optField "B" "b", VBool true);
                (optField "M" "mac", VValue "*structopt.macAddr" macAddr 0);
                (optField "D" "d", VDuration 0);
                (optField "N" "n", VInt 7) ] [ [170; 187; 204; 221; 238; 255] ],
     None)
  ∧ record out.1.2 !! 0%nat = Some (optField "B" "b", VBool true)
  ∧ heap out.1.2 !! 0%nat = Some [170; 187; 204; 221; 238; 255]
  ∧ record out.1.2 !! 3%nat = Some (optField "N" "n", VInt 7).
Proof.
  intros m env out.
  pose (cfg := ptrToStruct "*structopt.Test").
  pose (oB := mkOption (VBool false) 0 "APP_B" "b" EmptyString).
  pose (oM := mkOption (VValue "*structopt.macAddr" macAddr 0) 1 "APP_MAC" "mac"
                EmptyString).
  pose (oD := mkOption (VDuration 7) 2 "APP_D" "d" EmptyString).
  pose (oN := mkOption (VInt 7) 3 "APP_N" "n" EmptyString).
  pose (s1 := (setAll testLib env [oB; oM] (mkState m (flagSetFor "APP" None))).2).
  pose (s2 := (set testLib env oD s1).2).
  pose (e := parseError "APP_D" "foo" (libError "time: invalid duration")).
  assert (concreteFields m = true) as Hc by (vm_compute; reflexivity).
  assert (inferOptions testLib "APP" cfg m = ([oB; oM] ++ oD :: [oN], None)) as Hopts
    by (vm_compute; reflexivity).
  assert (setAll testLib env [oB; oM] (mkState m (flagSetFor "APP" None))
          = (Done None, s1)) as Hpre by (vm_compute; reflexivity).
  assert (set testLib env oD s1 = (Done (Some e), s2)) as Hset
    by (vm_compute; reflexivity).
  destruct (Load_stops_at_first_error testLib env ["prog"] "APP" cfg None m
              [oB; oM] oD [oN] s1 e s2 Hc Hopts Hpre Hset)
    as (Hload & _ & Hstored & Hobj & Hpost & _).
  assert (mem s2
          = mkMemory [ (optField "B" "b", VBool true);
                       (optField "M" "mac", VValue "*structopt.macAddr" macAddr 0);
                       (optField "D" "d", VDuration 0);
                       (optField "N" "n", VInt 7) ] [ [170; 187; 204; 221; 238; 255] ])
    as Hmem by (vm_compute; reflexivity).
  assert (out.1.2 = mem s2) as Hout.
  { change (out.1.2) with (Load testLib env ["prog"] "APP" cfg None m).1.2.
    by rewrite Hload. }
  split_and!.
  - change out with (Load testLib env ["prog"] "APP" cfg None m).
    rewrite Hload, Hmem. reflexivity.
  - rewrite Hout.
    exact (Hstored oB (optField "B" "b") (VBool false) (VBool true) None
             ltac:(left) eq_refl ltac:(vm_compute; reflexivity)).
  - rewrite Hout.
    refine (Hobj oM "*structopt.macAddr" macAddr 0%nat [] ltac:(right; left)
              eq_refl eq_refl _).
    intros o'' ty' u' Ho'' Hptr Hv.
    apply elem_of_app in Ho'' as [Ho''|Ho''].
    + apply elem_of_cons in Ho'' as [->|Ho'']; [discriminate Hv|].
      apply elem_of_cons in Ho'' as [->|Ho'']; [by apply Hptr|].
      by apply elem_of_nil in Ho''.
    + apply elem_of_cons in Ho'' as [->|Ho'']; [discriminate Hv|].
      by apply elem_of_nil in Ho''.
  - rewrite Hout. exact (Hpost oN ltac:(left)).
Defined.

(** C8: with a nil flag set, [Load] sets every option against a flag set of
    its own, made by [NewFlagSet prefix ExitOnError], and returns what that
    loop returned; [os.Args] is never read, so the command line changes
    neither the result nor the record; and when the loop ends without an
    error every option is in that flag set under its flag name. *)
Theorem Load_nil_flags L env osArgs prefix config m :
  Load L env osArgs prefix config None m
  = match inferOptions L prefix config m with
    | (_, Some err) => (Done (Some err), m, None)
    | (opts, None) =>
        let '(r, s) :=
          setAll L env opts (mkState m (NewFlagSet prefix ExitOnError)) in
        (r, mem s, None)
    end
  ∧ (∀ osArgs',
       Load L env osArgs' prefix config None m
       = Load L env osArgs prefix config None m)
  ∧ (∀ opts s o,
       inferOptions L prefix config m = (opts, None) →
       setAll L env opts (mkState m (NewFlagSet prefix ExitOnError)) = (Done None, s) →
       o ∈ opts →
       ∃ fv, formal (fs s) !! flagName o = Some (mkFlag (flagName o) (flagDesc o) fv)).
Proof.
  assert (∀ args,
    Load L env args prefix config None m
    = match inferOptions L prefix config m with
      | (_, Some err) => (Done (Some err), m, None)
      | (opts, None) =>
          let '(r, s) :=
            setAll L env opts (mkState m (NewFlagSet prefix ExitOnError)) in
          (r, mem s, None)
      end) as Heq.
  { intros args. unfold Load.
    destruct (inferOptions L prefix config m) as [opts [err|]]; [done|].
    unfold bind. simpl.
    by destruct (setAll L env opts _) as [[[e|]| |] s]. }
  split_and!.
  - apply Heq.
  - intros osArgs'. by rewrite !Heq.
  - intros opts s o _ Hrun Ho.
    destruct (setAll_registered _ _ _ _ _ _ Hrun Ho) as (fv & _ & Hfv & _).
    by exists fv.
Qed.

Lemma Load_nil_flags_witness :
  let m := mkMemory Config [] in
  let cfg := ptrToStruct "*structopt.Config" in
  let o := mkOption (VDuration 7) 5 "APP_DURATION" "duration" EmptyString in
  let opts := (inferOptions testLib "APP" cfg m).1 in
  let s := (setAll testLib testEnv opts (mkState m (NewFlagSet "APP" ExitOnError))).2 in
  Load testLib testEnv ["prog"] "APP" cfg None m
  = Load testLib testEnv ["prog"; "-duration"; "2s"] "APP" cfg None m
  ∧ ∃ fv, formal (fs s) !! flagName o = Some (mkFlag (flagName o) (flagDesc o) fv).
Proof.
  intros m cfg o opts s.
  pose proof (Load_nil_flags testLib testEnv ["prog"; "-duration"; "2s"] "APP" cfg m)
    as (_ & Hargs & Hreg).
  split.
  - exact (Hargs ["prog"]).
  - refine (Hreg opts s o _ _ _).
    + vm_compute. reflexivity.
    + vm_compute. reflexivity.
    + vm_compute. do 5 right. left.
Defined.

(** C9: for a pointer to a struct, [inferOptions] returns no error; its
    options are exactly those of the fields that are settable and carry a
    non-empty tag, so a field with no tag, with an empty tag, or that is not
    settable has no option; and when no field is recognised the sequence is
    empty. *)
Theorem inferOptions_skips_fields L prefix config m :
  ValueOf config = ofPtr ofStruct →
  ∃ opts,
    inferOptions L prefix config m = (opts, None)
    ∧ (∀ i typ d,
         record m !! i = Some (typ, d) →
         Tag_Get (Tag typ) tagPrefix = EmptyString ∨ CanSet typ = false →
         ∀ o, o ∈ opts → ptr o ≠ i)
    ∧ (∀ o, o ∈ opts ↔
         ∃ i typ d, record m !! i = Some (typ, d)
                    ∧ CanSet typ = true
                    ∧ Tag_Get (Tag typ) tagPrefix ≠ EmptyString
                    ∧ o = descriptor L prefix i typ d)
    ∧ ((∀ i typ d,
          record m !! i = Some (typ, d) →
          Tag_Get (Tag typ) tagPrefix = EmptyString ∨ CanSet typ = false) →
       opts = []).
Proof.
  intros Hcfg. exists (inferFields L prefix 0 (record m)).
  assert (∀ typ, recognised typ = true ↔
            CanSet typ = true ∧ Tag_Get (Tag typ) tagPrefix ≠ EmptyString) as Hrec.
  { intros typ. unfold recognised. rewrite andb_true_iff, negb_true_iff.
    destruct (Tag_Get (Tag typ) tagPrefix); simpl;
      split; intros [H1 H2]; split; done || congruence. }
  assert (∀ o, o ∈ inferFields L prefix 0 (record m) ↔
            ∃ i typ d, record m !! i = Some (typ, d)
                       ∧ CanSet typ = true
                       ∧ Tag_Get (Tag typ) tagPrefix ≠ EmptyString
                       ∧ o = descriptor L prefix i typ d) as Hin.
  { intros o. rewrite elem_of_inferFields. split.
    - intros (i & typ & d & Hi & Hr & Ho). apply Hrec in Hr as [H1 H2].
      by exists i, typ, d.
    - intros (i & typ & d & Hi & H1 & H2 & Ho). exists i, typ, d.
      split_and!; [done| by apply Hrec | done]. }
  split_and!.
  - by apply inferOptions_struct.
  - intros i typ d Hi Hskip o (i' & typ' & d' & Hi' & Hc & Ht & ->)%Hin.
    simpl. intros ->. simplify_eq.
    destruct Hskip as [Hskip|Hskip]; congruence.
  - done.
  - intros Hnone.
    destruct (inferFields L prefix 0 (record m)) as [|o opts] eqn:Hopts; [done|].
    assert (o ∈ o :: opts) as (i & typ & d & Hi & Hc & Ht & _)%Hin by left.
    destruct (Hnone i typ d Hi); congruence.
Qed.

Lemma inferOptions_skips_fields_witness :
  let m :=
    mkMemory
      [ (mkField "Name" true [] Concrete, VString "a");                     (* no tag *)
        (mkField "Other" true [("json", "other")] Concrete, VString "b");   (* no opt tag *)
        (mkField "Blank" true [("opt", EmptyString)] Concrete, VInt 1);     (* empty tag *)
        (mkField "hidden" false [("opt", "hidden")] Concrete, VInt 2) ] []  (* not settable *)
  in
  ∃ opts, inferOptions testLib "APP" (ptrToStruct "*main.T") m = (opts, None)
          ∧ opts = [].
Proof.
  cbv zeta.
  destruct (inferOptions_skips_fields testLib "APP" (ptrToStruct "*main.T")
    (mkMemory
      [ (mkField "Name" true [] Concrete, VString "a");
        (mkField "Other" true [("json", "other")] Concrete, VString "b");
        (mkField "Blank" true [("opt", EmptyString)] Concrete, VInt 1);
        (mkField "hidden" false [("opt", "hidden")] Concrete, VInt 2) ] []) eq_refl)
    as (opts & Hopts & _ & _ & Hempty).
  exists opts. split; [exact Hopts|]. apply Hempty.
  intros [|[|[|[|i]]]] typ d Hi; simpl in Hi; simplify_eq; simpl; auto.
Defined.




(** * Further properties of the code *)

(** A blank environment text never makes [set] return a parse error: for a
    field of a supported type, a call that returns returns no error. *)
Theorem set_blank_environment_no_error L env o s r s' :
  isEmpty (TrimSpace L (Getenv env (envVar o))) = true →
  (∀ ty, iface o ≠ VOther ty) →
  set L env o s = (Done r, s') →
  r = None.
Proof.
  intros Hblank Hsup Hset. apply set_sound in Hset.
  inversion Hset; subst.
  - exfalso. by eapply Hsup.
  - unfold reported. rewrite Hblank. by destruct err.
  - unfold reported. rewrite Hblank. by destruct (vSet u _ obj).2.
Qed.

Lemma set_blank_environment_no_error_witness :
  let o := mkOption (VDuration 7) 0 "APP_D" "d" EmptyString in
  let env : gmap string string := {[ "APP_D" := "  " ]} in
  let s := mkState (mkMemory [ (optField "D" "d", VDuration 7) ] [])
                   (NewFlagSet "APP" ExitOnError) in
  let r := match (set testLib env o s).1 with
           | Done r => r
           | _ => Some (libError "no result")
           end in
  isEmpty (TrimSpace testLib (Getenv env (envVar o))) = true
  ∧ set testLib env o s = (Done r, (set testLib env o s).2)
  ∧ r = None.
Proof.
  intros o env s r.
  assert (isEmpty (TrimSpace testLib (Getenv env (envVar o))) = true) as Hblank
    by (vm_compute; reflexivity).
  assert (set testLib env o s = (Done r, (set testLib env o s).2)) as Hset
    by (vm_compute; reflexivity).
  split; [exact Hblank|]. split; [exact Hset|].
  refine (set_blank_environment_no_error testLib env o s r _ Hblank _ Hset).
  intros ty. discriminate.
Defined.

(** The environment variable of every option is the prefix, an underscore
    and the upper-cased tag, whatever [strings.ReplaceAll] returns: its
    result is not used. *)
Theorem inferOptions_envVar L prefix config m o :
  o ∈ (inferOptions L prefix config m).1 →
  envVar o = prefix +:+ "_" +:+ ToUpper L (flagName o)
  ∧ flagDesc o = EmptyString
  ∧ ∃ typ, record m !! ptr o = Some (typ, iface o)
           ∧ flagName o = Tag_Get (Tag typ) tagPrefix.
Proof.
  destruct (decide (ValueOf config = ofPtr ofStruct)) as [Hcfg|Hcfg].
  - rewrite inferOptions_struct by done. simpl.
    intros (i & typ & d & Hi & _ & ->)%elem_of_inferFields. simpl.
    split_and!; try done. by exists typ.
  - rewrite inferOptions_not_struct by done. simpl. by intros ?%elem_of_nil.
Qed.

Lemma inferOptions_envVar_witness :
  let m := mkMemory [ (optField "UserName" "username", VString EmptyString) ] [] in
  let o := mkOption (VString EmptyString) 0 "APP_USERNAME" "username" EmptyString in
  envVar o = "APP" +:+ "_" +:+ ToUpper testLib (flagName o)
  ∧ flagDesc o = EmptyString
  ∧ ∃ typ, record m !! ptr o = Some (typ, iface o)
           ∧ flagName o = Tag_Get (Tag typ) tagPrefix.
Proof.
  intros m o.
  apply (inferOptions_envVar testLib "APP" (ptrToStruct "*main.Config") m o).
  vm_compute. left.
Defined.

(** Text that the parser of a built-in kind rejects, and that is not blank,
    makes [set] return the parse error that names the variable and the text
    and wraps the parser's error, when the flag can be registered. *)
Theorem set_invalid_text_returns_parse_error L env o s v cause :
  parseAs L (iface o) (Getenv env (envVar o)) = Some (v, Some cause) →
  isEmpty (TrimSpace L (Getenv env (envVar o))) = false →
  registrable (flagName o) (fs s) = true →
  ∃ s', set L env o s
        = (Done (Some (parseError (envVar o) (Getenv env (envVar o)) cause)), s')
        ∧ Unwrap (parseError (envVar o) (Getenv env (envVar o)) cause) = Some cause.
Proof.
  intros Hp Hblank Hr.
  destruct (parseAs_builtin _ _ _ _ Hp) as [Hnv [fv Hfv]].
  destruct (set_builtin_run L env o v (Some cause) (fv (ptr o)) s Hp Hnv (Hfv _))
    as [[_ He]|[Hr' _]]; [|congruence].
  eexists. split; [|done]. rewrite He. unfold reported. by rewrite Hblank.
Qed.

Lemma set_invalid_text_returns_parse_error_witness :
  let o := mkOption (VDuration 0) 0 "APP_D" "d" EmptyString in
  let env : gmap string string := {[ "APP_D" := "foo" ]} in
  let s := mkState (mkMemory [ (optField "D" "d", VDuration 0) ] [])
                   (NewFlagSet "APP" ExitOnError) in
  let cause := libError "time: invalid duration" in
  ∃ s', set testLib env o s
        = (Done (Some (parseError (envVar o) (Getenv env (envVar o)) cause)), s')
        ∧ Unwrap (parseError (envVar o) (Getenv env (envVar o)) cause) = Some cause.
Proof.
  intros o env s cause.
  apply (set_invalid_text_returns_parse_error testLib env o s (VDuration 0) cause).
  - vm_compute. reflexivity.
  - vm_compute. reflexivity.
  - vm_compute. reflexivity.
Defined.

(** [urlValue.Set] looks at the error first: text [url.Parse] rejects is
    returned as an error, and the URL the flag is bound to is not written. *)
Theorem urlValue_Set_invalid L u a err s :
  url_Parse L a = (None, Some err) →
  urlValue_Set L u a s = (Done (Some err), s).
Proof. intros H. unfold urlValue_Set. by rewrite H. Qed.

Lemma urlValue_Set_invalid_witness :
  let s := mkState (mkMemory [ (optField "URL" "url", VURL emptyURL) ] [])
                   (NewFlagSet "APP" ExitOnError) in
  urlValue_Set testLib 0 ":foo" s = (Done (Some (libError "missing protocol scheme")), s).
Proof.
  intros s.
  apply (urlValue_Set_invalid testLib 0%nat ":foo" (libError "missing protocol scheme") s).
  vm_compute. reflexivity.
Defined.

(** A [url.URL] field whose environment text [url.Parse] rejects makes [set]
    panic, whatever the text: the parser's URL pointer is dereferenced
    before the error is looked at. *)
Theorem set_invalid_url_panics L env o u0 err s :
  iface o = VURL u0 →
  url_Parse L (Getenv env (envVar o)) = (None, Some err) →
  set L env o s = (Panic "nil pointer dereference", s).
Proof. intros Hi Hp. by eapply set_url_nil. Qed.

Lemma set_invalid_url_panics_witness :
  let o := mkOption (VURL emptyURL) 0 "APP_URL" "url" EmptyString in
  let env : gmap string string := {[ "APP_URL" := ":foo" ]} in
  let s := mkState (mkMemory [ (optField "URL" "url", VURL emptyURL) ] [])
                   (NewFlagSet "APP" ExitOnError) in
  set testLib env o s = (Panic "nil pointer dereference", s).
Proof.
  intros o env s.
  apply (set_invalid_url_panics testLib env o emptyURL
           (libError "missing protocol scheme") s).
  - reflexivity.
  - vm_compute. reflexivity.
Defined.




(** [Load] reads no environment variable but those of the recognised
    fields: two environments that agree on [prefix_TAG] for every settable
    field with a non-empty tag give the same result, the same memory and the
    same flag set. *)
Theorem Load_reads_only_its_variables L env1 env2 osArgs prefix config flags m :
  (∀ i typ d,
     record m !! i = Some (typ, d) →
     CanSet typ = true →
     Tag_Get (Tag typ) tagPrefix ≠ EmptyString →
     Getenv env1 (prefix +:+ envSep +:+ ToUpper L (Tag_Get (Tag typ) tagPrefix))
     = Getenv env2 (prefix +:+ envSep +:+ ToUpper L (Tag_Get (Tag typ) tagPrefix))) →
  Load L env1 osArgs prefix config flags m = Load L env2 osArgs prefix config flags m.
Proof.
  intros Hagree.
  destruct (decide (ValueOf config = ofPtr ofStruct)) as [Hcfg|Hcfg].
  - rewrite !Load_struct by done.
    rewrite (setAll_env_ext L env1 env2); [done|].
    intros o (i & typ & d & Hi & Hr & ->)%elem_of_inferFields. simpl.
    unfold recognised in Hr. apply andb_prop in Hr as [Hc Ht].
    apply Hagree with i d; [done|done|].
    intros Heq. by rewrite Heq in Ht.
  - unfold Load. by rewrite !inferOptions_not_struct.
Qed.

Lemma Load_reads_only_its_variables_witness :
  let m := mkMemory Config [] in
  let cfg := ptrToStruct "*structopt.Config" in
  let env2 : gmap string string :=
    <["HOME" := "/root"]> (<["APP_OTHER" := "1"]> testEnv) in
  Load testLib testEnv ["prog"] "APP" cfg None m
  = Load testLib env2 ["prog"] "APP" cfg None m.
Proof.
  intros m cfg env2.
  apply (Load_reads_only_its_variables testLib testEnv env2 ["prog"] "APP" cfg None m).
  intros [|[|[|[|[|[|[|[|i]]]]]]]] typ d Hi _ _; simpl in Hi; simplify_eq;
    vm_compute; reflexivity.
Defined.

(** The options of [inferOptions] come in the order of the struct's fields:
    an option that comes later in the sequence belongs to a later field;
    each option's address is the index of a field of the record, and there
    are at most as many options as fields. *)
Theorem inferOptions_declaration_order L prefix config m :
  (∀ j k o o',
     (inferOptions L prefix config m).1 !! j = Some o →
     (inferOptions L prefix config m).1 !! k = Some o' →
     (j < k)%nat → (ptr o < ptr o')%nat)
  ∧ (∀ o, o ∈ (inferOptions L prefix config m).1 → (ptr o < length (record m))%nat)
  ∧ (length (inferOptions L prefix config m).1 ≤ length (record m))%nat.
Proof.
  destruct (decide (ValueOf config = ofPtr ofStruct)) as [Hcfg|Hcfg].
  - rewrite inferOptions_struct by done. simpl. split_and!.
    + apply inferFields_increasing.
    + intros o Ho%inferFields_ptr_bounds. lia.
    + apply inferFields_length.
  - rewrite inferOptions_not_struct by done. simpl.
    split_and!; [done| by intros o ?%elem_of_nil |lia].
Qed.

Lemma inferOptions_declaration_order_witness :
  let m := mkMemory Config [] in
  let opts := (inferOptions testLib "APP" (ptrToStruct "*structopt.Config") m).1 in
  let o := mkOption (VInt 7) 1 "APP_INT" "int" EmptyString in
  let o' := mkOption (VDuration 7) 5 "APP_DURATION" "duration" EmptyString in
  opts !! 1%nat = Some o ∧ opts !! 5%nat = Some o' ∧ (ptr o < ptr o')%nat.
Proof.
  intros m opts o o'.
  assert (opts !! 1%nat = Some o) as H1 by (vm_compute; reflexivity).
  assert (opts !! 5%nat = Some o') as H5 by (vm_compute; reflexivity).
  split; [exact H1|]. split; [exact H5|].
  exact (proj1 (inferOptions_declaration_order testLib "APP"
                  (ptrToStruct "*structopt.Config") m) 1%nat 5%nat o o' H1 H5
               ltac:(lia)).
Defined.

(** When [Load] is given a flag set and returns no error, the flag set keeps
    its name, its error handling and every flag it had, and gains exactly
    one flag for each settable field with a non-empty tag, named by the tag
    and bound to that field; so the tags were free in the flag set and
    different from each other. *)
Theorem Load_flag_set_grows L env osArgs prefix config f0 m m' f' :
  Load L env osArgs prefix config (Some f0) m = (Done None, m', f') →
  ∃ f1,
    f' = Some f1
    ∧ fsName f1 = fsName f0
    ∧ errorHandling f1 = errorHandling f0
    ∧ (∀ n fl, formal f0 !! n = Some fl → formal f1 !! n = Some fl)
    ∧ (∀ n fl,
         formal f1 !! n = Some fl ↔
         formal f0 !! n = Some fl
         ∨ ∃ i typ d fv,
             record m !! i = Some (typ, d)
             ∧ CanSet typ = true
             ∧ n = Tag_Get (Tag typ) tagPrefix
             ∧ n ≠ EmptyString
             ∧ flagValueOf d i = Some fv
             ∧ fl = mkFlag n EmptyString fv)
    ∧ (∀ i typ d,
         record m !! i = Some (typ, d) → CanSet typ = true →
         Tag_Get (Tag typ) tagPrefix ≠ EmptyString →
         formal f0 !! Tag_Get (Tag typ) tagPrefix = None)
    ∧ (∀ i j typ d typ2 d2,
         record m !! i = Some (typ, d) → record m !! j = Some (typ2, d2) →
         CanSet typ = true → CanSet typ2 = true →
         Tag_Get (Tag typ) tagPrefix ≠ EmptyString →
         Tag_Get (Tag typ) tagPrefix = Tag_Get (Tag typ2) tagPrefix →
         i = j).
Proof.
  intros Hload.
  destruct (decide (ValueOf config = ofPtr ofStruct)) as [Hcfg|Hcfg];
    [|by rewrite Load_not_struct in Hload].
  assert (∃ s1 s2,
            setAll L env (inferFields L prefix 0 (record m)) (mkState m f0)
            = (Done None, s1)
            ∧ fs s2 = fs s1 ∧ f' = Some (fs s2)) as (s1 & s2 & Hrun & Hfs & ->).
  { destruct (Load_flags_cases _ _ _ _ _ _ _ _ _ _ Hcfg Hload)
      as [(s1 & _ & ? & _)|[(s1 & _ & _ & ? & _)|(s1 & s2 & prog & args & Hrun & _ & Hp & _ & ->)]];
      [done|done|].
    exists s1, s2. split_and!; try done. by eapply Parse_fs. }
  destruct (setAll_success_inv _ _ _ _ _ Hrun) as (Hnd & Hreg & Hformal).
  simpl in Hreg, Hformal.
  exists (fs s2). rewrite Hfs. split_and!.
  - done.
  - by rewrite (setAll_fsName _ _ _ _ _ _ Hrun).
  - by rewrite (setAll_errorHandling _ _ _ _ _ _ Hrun).
  - intros n fl Hn. apply Hformal. by left.
  - intros n fl. rewrite Hformal. split.
    + intros [?|(o & fv & (i & typ & d & Hi & [Hc Ht]%recognised_iff & ->)%elem_of_inferFields
                  & Hfv & -> & ->)]; [by left|].
      right. simpl in *. by exists i, typ, d, fv.
    + intros [?|(i & typ & d & fv & Hi & Hc & -> & Ht & Hfv & ->)]; [by left|].
      right. exists (descriptor L prefix i typ d), fv. split_and!; try done.
      by apply recognised_descriptor.
  - intros i typ d Hi Hc Ht.
    pose proof (Hreg _ (recognised_descriptor L prefix m i typ d Hi Hc Ht)) as Hr.
    unfold registrable in Hr. simpl in Hr. apply andb_prop in Hr as [_ Hr].
    by destruct (formal f0 !! Tag_Get (Tag typ) tagPrefix).
  - intros i j typ d typ2 d2 Hi Hj Hc Hc2 Ht Heq.
    assert (Tag_Get (Tag typ2) tagPrefix ≠ EmptyString) as Ht2 by congruence.
    pose proof (recognised_descriptor L prefix m i typ d Hi Hc Ht) as Ho.
    pose proof (recognised_descriptor L prefix m j typ2 d2 Hj Hc2 Ht2) as Ho2.
    apply list_elem_of_lookup in Ho as [a Ha], Ho2 as [b Hb].
    assert (a = b) as ->.
    { eapply NoDup_lookup; [exact Hnd| |].
      - rewrite list_lookup_fmap, Ha. done.
      - rewrite list_lookup_fmap, Hb. simpl. by rewrite Heq. }
    rewrite Ha in Hb. by simplify_eq.
Qed.

Lemma Load_flag_set_grows_witness :
  let m := mkMemory Config [] in
  let cfg := ptrToStruct "*structopt.Config" in
  let f0 := NewFlagSet "TestFlags" ContinueOnError in
  let out := Load testLib testEnv ["prog"] "APP" cfg (Some f0) m in
  out = (Done None, out.1.2, out.2)
  ∧ ∃ f1, out.2 = Some f1
          ∧ fsName f1 = fsName f0
          ∧ errorHandling f1 = errorHandling f0
          ∧ formal f0 !! "duration" = None
          ∧ formal f1 !! "duration" = Some (mkFlag "duration" EmptyString (durationValue 5)).
Proof.
  intros m cfg f0 out.
  assert (out = (Done None, out.1.2, out.2)) as Hload by (vm_compute; reflexivity).
  split; [exact Hload|].
  destruct (Load_flag_set_grows testLib testEnv ["prog"] "APP" cfg f0 m
              out.1.2 out.2 Hload)
    as (f1 & Hf1 & Hname & Heh & _ & Hformal & Hfree & _).
  exists f1. split_and!; [exact Hf1|exact Hname|exact Heh| |].
  - exact (Hfree 5%nat (optField "Duration" "duration") (VDuration 7)
             eq_refl eq_refl ltac:(discriminate)).
  - apply Hformal. right.
    exists 5%nat, (optField "Duration" "duration"), (VDuration 7), (durationValue 5).
    split_and!; try reflexivity. discriminate.
Defined.

(** An option whose flag name is already defined, in the caller's flag set
    or by an earlier option with the same tag, makes [Load] panic when the
    loop reaches it: no error is returned, and the flag set is the one the
    earlier options left. *)
Theorem Load_defined_tag_panics
    L env osArgs prefix config flags m pre o post s1 :
  inferOptions L prefix config m = (pre ++ o :: post, None) →
  setAll L env pre (mkState m (flagSetFor prefix flags)) = (Done None, s1) →
  (∀ ty, iface o ≠ VOther ty) →
  is_Some (formal (flagSetFor prefix flags) !! flagName o)
  ∨ (∃ o', o' ∈ pre ∧ flagName o' = flagName o) →
  ∃ msg s2,
    Load L env osArgs prefix config flags m = (Panic msg, mem s2, callerFlags flags s2)
    ∧ fs s2 = fs s1.
Proof.
  intros [Hcfg Hopts]%inferOptions_inv Hpre Hsup Hdef.
  assert (is_Some (formal (fs s1) !! flagName o)) as [fl Hfl].
  { destruct Hdef as [[fl Hfl]|(o' & Ho' & Heq)].
    - exists fl. by eapply (setAll_formal_mono L env pre (mkState m _)).
    - destruct (setAll_registered _ _ _ _ _ _ Hpre Ho') as (fv & _ & Hf & _).
      rewrite Heq in Hf. by eexists. }
  assert (registrable (flagName o) (fs s1) = false) as Hnot.
  { unfold registrable. rewrite Hfl. apply andb_false_r. }
  assert (∃ msg s2, set L env o s1 = (Panic msg, s2) ∧ fs s2 = fs s1)
    as (msg & s2 & Hset & Hfs).
  { destruct (set L env o s1) as [r s2] eqn:Hset. pose proof Hset as Hspec.
    apply set_sound in Hspec.
    inversion Hspec; subst; try congruence; try (by eexists _, _). }
  exists msg, s2. split; [|done].
  by rewrite Load_struct, <- Hopts, setAll_app, Hpre, setAll_cons, Hset.
Qed.

Lemma Load_defined_tag_panics_witness :
  let m := mkMemory [ (optField "A" "level", VInt 1);
                      (optField "B" "level", VInt 2) ] [] in
  ∃ msg s2,
    Load testLib ∅ ["prog"] "APP" (ptrToStruct "*main.Config") None m
    = (Panic msg, mem s2, None)
    ∧ fs s2 = register (intValue 0) "level" EmptyString (NewFlagSet "APP" ExitOnError).
Proof.
  intros m.
  pose (oA := mkOption (VInt 1) 0 "APP_LEVEL" "level" EmptyString).
  pose (oB := mkOption (VInt 2) 1 "APP_LEVEL" "level" EmptyString).
  pose (s1 := mkState (pokeMem 0 (VInt 0) m)
                (register (intValue 0) "level" EmptyString (NewFlagSet "APP" ExitOnError))).
  refine (Load_defined_tag_panics testLib ∅ ["prog"] "APP" (ptrToStruct "*main.Config")
            None m [oA] oB [] s1 _ _ _ _).
  - vm_compute. reflexivity.
  - vm_compute. reflexivity.
  - intros ty. discriminate.
  - right. exists oA. split; [left|reflexivity].
Defined.

(** [Load] exits the process only through [Parse] on a flag set whose error
    handling is [ExitOnError]: with a nil flag set, or with a flag set that
    continues or panics on error, it returns or panics. *)
Theorem Load_never_exits L env osArgs prefix config flags m r m' f' :
  flags = None ∨ (∃ f0, flags = Some f0 ∧ errorHandling f0 ≠ ExitOnError) →
  Load L env osArgs prefix config flags m = (r, m', f') →
  ∀ code, r ≠ Exit code.
Proof.
  intros Hflags Hload code ->.
  destruct (decide (ValueOf config = ofPtr ofStruct)) as [Hcfg|Hcfg];
    [|by rewrite Load_not_struct in Hload].
  destruct Hflags as [->|(f0 & -> & Heh)].
  - rewrite Load_struct in Hload by done. simpl in Hload.
    destruct (setAll L env _ _) as [[[e|]| |c] s1] eqn:Hrun; simplify_eq.
    by apply setAll_no_exit in Hrun.
  - destruct (Load_flags_cases _ _ _ _ _ _ _ _ _ _ Hcfg Hload)
      as [(s1 & Hrun & _)|[(s1 & _ & _ & ? & _)
         |(s1 & s2 & prog & args & Hrun & _ & Hp & _)]]; [|done|].
    + by apply setAll_no_exit in Hrun.
    + destruct (Parse_invariant L (λ _, True) args s1 _ s2 ltac:(done) I Hp)
        as (_ & _ & Hexit).
      apply Heh. rewrite <- (Hexit code eq_refl).
      symmetry. by eapply (setAll_errorHandling L env _ (mkState m f0)).
Qed.

Lemma Load_never_exits_witness :
  let m := mkMemory Config [] in
  let f0 := NewFlagSet "TestFlags" ContinueOnError in
  let out := Load testLib testEnv ["prog"; "-nosuchflag"] "APP"
               (ptrToStruct "*structopt.Config") (Some f0) m in
  out.1.1 = Done (Some (flagNotDefined "nosuchflag")) ∧ ∀ code, out.1.1 ≠ Exit code.
Proof.
  intros m f0 out.
  split; [vm_compute; reflexivity|].
  refine (Load_never_exits testLib testEnv ["prog"; "-nosuchflag"] "APP"
            (ptrToStruct "*structopt.Config") (Some f0) m out.1.1 out.1.2 out.2 _ _).
  - right. exists f0. split; [reflexivity|discriminate].
  - change (out = (out.1.1, out.1.2, out.2)). clearbody out.
    by destruct out as [[??]?].
Defined.

(** A flag on the command line that no field and no earlier definition
    names: what [Load] does is what the caller's flag set says.  It returns
    the error under [ContinueOnError], exits with status 2 under
    [ExitOnError] and panics under [PanicOnError]; the record is as the
    environment left it, and the arguments after the flag are not looked
    at. *)
Theorem Load_undefined_flag L env prefix config f0 m prog name rest m1 f1 :
  Load L env [prog] prefix config (Some f0) m = (Done None, m1, Some f1) →
  name ≠ EmptyString →
  beginsWithDash name = false →
  containsByte "="%char name = false →
  name ≠ "help" → name ≠ "h" →
  formal f1 !! name = None →
  Load L env (prog :: ("-" +:+ name) :: rest) prefix config (Some f0) m
  = (match errorHandling f0 with
     | ContinueOnError => Done (Some (flagNotDefined name))
     | ExitOnError => Exit 2
     | PanicOnError => Panic "flag: parse error"
     end, m1, Some f1).
Proof.
  intros Hload Hn Hd He Hhelp Hh Hfree.
  destruct (decide (ValueOf config = ofPtr ofStruct)) as [Hcfg|Hcfg];
    [|by rewrite Load_not_struct in Hload].
  destruct (Load_no_arguments_inv L env [prog] prefix config (Some f0) m m1 (Some f1)
              Hcfg (or_intror eq_refl) Hload) as (s1 & Hrun & -> & Hf1).
  simpl in Hrun, Hf1. simplify_eq.
  rewrite (Load_arguments _ _ _ _ _ _ _ _ s1 Hcfg Hrun).
  pose proof (setAll_errorHandling _ _ _ _ _ _ Hrun) as Heh. simpl in Heh.
  unfold Parse. rewrite splitArgument_plain by done. rewrite Hfree.
  assert (String.eqb name "help" = false) as -> by by apply String.eqb_neq.
  assert (String.eqb name "h" = false) as -> by by apply String.eqb_neq.
  simpl. unfold failf. rewrite Heh. by destruct (errorHandling f0).
Qed.

Lemma Load_undefined_flag_witness :
  let m := mkMemory Config [] in
  let cfg := ptrToStruct "*structopt.Config" in
  let f0 := NewFlagSet "TestFlags" ExitOnError in
  let after := Load testLib testEnv ["prog"] "APP" cfg (Some f0) m in
  ∃ f1, after = (Done None, after.1.2, Some f1)
        ∧ Load testLib testEnv ["prog"; "-verbose"; "-int"; "50"] "APP" cfg (Some f0) m
          = (Exit 2, after.1.2, Some f1).
Proof.
  intros m cfg f0 after.
  pose (f1 := match after.2 with Some f => f | None => f0 end).
  assert (after = (Done None, after.1.2, Some f1)) as Hload by (vm_compute; reflexivity).
  exists f1. split; [exact Hload|].
  refine (Load_undefined_flag testLib testEnv "APP" cfg f0 m "prog" "verbose"
            ["-int"; "50"] after.1.2 f1 Hload _ _ _ _ _ _).
  - discriminate.
  - reflexivity.
  - reflexivity.
  - discriminate.
  - discriminate.
  - vm_compute. reflexivity.
Defined.

(** When the options belong to fields of concrete types, [Load] keeps the
    record in shape, however it ends: the record has the fields it had,
    with their declarations; a field that is not settable, has no tag, or
    is of a user-defined or unsupported type holds the value it held; and
    any other field holds a value of the type it had.  The flags the caller
    had defined are taken to be bound to variables of the caller's, outside
    the record.  A field of an interface type that is not settable or has
    no tag may be in the record: it is not written. *)
Theorem Load_keeps_shapes L env osArgs prefix config flags m r m' f' :
  concreteFields m = true →
  (∀ n fl p,
     formal (flagSetFor prefix flags) !! n = Some fl →
     writes (flValue fl) = Some p → (length (record m) ≤ p)%nat) →
  Load L env osArgs prefix config flags m = (r, m', f') →
  length (record m') = length (record m)
  ∧ ∀ i typ d,
      record m !! i = Some (typ, d) →
      ∃ d', record m' !! i = Some (typ, d')
            ∧ shapeOf d' = shapeOf d
            ∧ (CanSet typ = false ∨ Tag_Get (Tag typ) tagPrefix = EmptyString
               ∨ isBuiltin d = false → d' = d).
Proof.
  intros _ Hcaller Hload.
  assert (keepsShapes m m') as [Hlen Hk].
  { destruct (decide (ValueOf config = ofPtr ofStruct)) as [Hcfg|Hcfg].
    - assert (boundInPlace m (flagSetFor prefix flags)) as Hb0.
      { intros n fl p sh Hn Hw _. left. by eapply Hcaller. }
      assert (∀ o, o ∈ inferFields L prefix 0 (record m) →
                ∃ i typ d, record m !! i = Some (typ, d) ∧ recognised typ = true
                           ∧ o = descriptor L prefix i typ d) as Hopts.
      { intros o (i & typ & d & ? & ? & ?)%elem_of_inferFields. by exists i, typ, d. }
      rewrite Load_struct in Hload by done.
      destruct (setAll L env _ _) as [r1 s1] eqn:Hrun.
      destruct (setAll_keepsShapes L env prefix m _ (mkState m _) r1 s1 Hopts
                  (keepsShapes_refl m) Hb0 Hrun) as [Hk1 Hb1].
      destruct r1 as [[e|]| |c]; simplify_eq; try done.
      destruct flags as [f0|]; [|by simplify_eq].
      destruct osArgs as [|prog args]; [by simplify_eq|].
      destruct (Parse L args s1) as [r2 s2] eqn:Hp.
      assert (keepsShapes m (mem s2)) as Hk2; [|by simplify_eq].
      refine (proj1 (Parse_invariant L (λ st, keepsShapes m (mem st)) args s1 r2 s2
                       _ Hk1 Hp)).
      intros name fl a st r1 st1 HQ Hfs Hf Hset.
      eapply Value_Set_keepsShapes; [done| |done].
      intros p sh Hw Hsh. by eapply Hb1.
    - rewrite Load_not_struct in Hload by done. simplify_eq.
      apply keepsShapes_refl. }
  split; [done|].
  intros i typ d Hi. destruct (Hk i typ d Hi) as (d' & Hi' & Hs & Hsame).
  exists d'. split_and!; try done.
  intros [Hc|[Ht|Hb]]; apply Hsame; auto.
  - left. unfold recognised. by rewrite Hc.
  - left. unfold recognised. rewrite Ht. apply andb_false_r.
Qed.

Lemma Load_keeps_shapes_witness :
  let m := mkMemory [ (mkField "Name" true [] Concrete, VString "kept");
                      (optField "Level" "level", VInt 7);
                      (mkField "hidden" false [("opt", "hidden")] Concrete, VBool true);
                      (mkField "Any" true [] InterfaceType, VString "inside") ] [] in
  let f0 := NewFlagSet "main" ContinueOnError in
  let out := Load testLib ∅ ["prog"; "-level=x"] "APP" (ptrToStruct "*main.Config")
               (Some f0) m in
  length (record out.1.2) = length (record m)
  ∧ (∃ d', record out.1.2 !! 0%nat = Some (mkField "Name" true [] Concrete, d')
           ∧ shapeOf d' = SString ∧ d' = VString "kept")
  ∧ (∃ d', record out.1.2 !! 1%nat = Some (optField "Level" "level", d')
           ∧ shapeOf d' = SInt)
  ∧ (∃ d', record out.1.2 !! 3%nat = Some (mkField "Any" true [] InterfaceType, d')
           ∧ d' = VString "inside").
Proof.
  intros m f0 out.
  pose (noEnv := (∅ : gmap string string)).
  assert (Load testLib noEnv ["prog"; "-level=x"] "APP" (ptrToStruct "*main.Config")
            (Some f0) m = (out.1.1, out.1.2, out.2)) as Hload.
  { change (out = (out.1.1, out.1.2, out.2)). clearbody out. by destruct out as [[??]?]. }
  assert (concreteFields m = true) as Hc by (vm_compute; reflexivity).
  destruct (Load_keeps_shapes testLib noEnv ["prog"; "-level=x"] "APP"
              (ptrToStruct "*main.Config") (Some f0) m out.1.1 out.1.2 out.2 Hc)
    as [Hlen Hk].
  - intros n fl p Hn. vm_compute in Hn. discriminate Hn.
  - exact Hload.
  - split; [exact Hlen|]. split; [|split].
    + destruct (Hk 0%nat (mkField "Name" true [] Concrete) (VString "kept") eq_refl)
        as (d' & Hd' & Hs & Hsame).
      exists d'. split_and!; [exact Hd'|exact Hs|].
      apply Hsame. right. left. reflexivity.
    + destruct (Hk 1%nat (optField "Level" "level") (VInt 7) eq_refl)
        as (d' & Hd' & Hs & _).
      exists d'. split; [exact Hd'|exact Hs].
    + destruct (Hk 3%nat (mkField "Any" true [] InterfaceType) (VString "inside")
                  eq_refl) as (d' & Hd' & _ & Hsame).
      exists d'. split; [exact Hd'|].
      apply Hsame. right. left. reflexivity.
Defined.

(** [Load] with a nil flag set can be repeated: on a record whose settable
    tagged fields are declared with concrete types, built-in or
    unsupported, a second call on the memory the first one left ends as the
    first did -- the same error, the same panic or nil -- and changes
    nothing. *)
Theorem Load_idempotent L env osArgs osArgs' prefix config m r m' f' :
  concreteFields m = true →
  (∀ i typ ty u a,
     record m !! i = Some (typ, VValue ty u a) → recognised typ = false) →
  Load L env osArgs prefix config None m = (r, m', f') →
  Load L env osArgs' prefix config None m' = (r, m', f').
Proof.
  intros _ Hnv Hload.
  destruct (decide (ValueOf config = ofPtr ofStruct)) as [Hcfg|Hcfg].
  - rewrite Load_struct in Hload |- * by done.
    destruct (setAll L env (inferFields L prefix 0 (record m)) _) as [r1 s1] eqn:Hrun.
    assert (m' = mem s1) as ->.
    { by destruct r1 as [[e|]| |c]; simplify_eq. }
    assert (∀ o, o ∈ inferFields L prefix 0 (record m) →
              ∃ i typ d, record m !! i = Some (typ, d) ∧ recognised typ = true
                         ∧ o = descriptor L prefix i typ d) as Hopts.
    { intros o (i & typ & d & ? & ? & ?)%elem_of_inferFields. by exists i, typ, d. }
    assert (keepsShapes m (mem s1)) as [Hlen Hk].
    { refine (proj1 (setAll_keepsShapes L env prefix m _ (mkState m _) r1 s1 Hopts
                       (keepsShapes_refl m) _ Hrun)).
      intros n fl p sh Hn. simpl in Hn. by rewrite lookup_empty in Hn. }
    assert (Forall2 sameShape (inferFields L prefix 0 (record m))
              (inferFields L prefix 0 (record (mem s1)))) as Hsame.
    { apply inferFields_sameShape.
      apply Forall2_same_length_lookup_2; [done|].
      intros i [t1 d1] [t2 d2] H1 H2.
      destruct (Hk i t1 d1 H1) as (d' & Hd' & Hs & _). simpl. by simplify_eq. }
    assert (∀ o ty u a, o ∈ inferFields L prefix 0 (record m) →
                        iface o ≠ VValue ty u a) as Hnv'.
    { intros o ty u a (i & typ & d & Hi & Hr & ->)%Hopts Hv. simpl in Hv. subst d.
      specialize (Hnv i typ ty u a Hi). congruence. }
    pose proof (setAll_again L env _ _ (mkState m (flagSetFor prefix None)) r1 s1 Hsame
                  (inferFields_NoDup L prefix 0 (record m)) Hnv' Hrun) as Hagain.
    cbn [fs mem] in Hagain. by rewrite Hagain.
  - rewrite Load_not_struct in Hload |- * by done. by simplify_eq.
Qed.

Lemma Load_idempotent_witness :
  let m := mkMemory [ (optField "Level" "level", VInt 7);
                      (optField "Rate" "rate", VFloat64 0);
                      (optField "Name" "name", VString "n") ] [] in
  let env : gmap string string :=
    list_to_map [ ("APP_LEVEL", "25"); ("APP_RATE", "fast") ] in
  let out := Load testLib env [] "APP" (ptrToStruct "*main.Config") None m in
  out.1.1 = Done (Some (parseError "APP_RATE" "fast" TestLib.errSyntax))
  ∧ record out.1.2 !! 0%nat = Some (optField "Level" "level", VInt 25)
  ∧ record out.1.2 !! 2%nat = Some (optField "Name" "name", VString "n")
  ∧ Load testLib env ["prog"; "-level=3"] "APP" (ptrToStruct "*main.Config") None out.1.2
    = out.
Proof.
  intros m env out.
  assert (out.1.1 = Done (Some (parseError "APP_RATE" "fast" TestLib.errSyntax)))
    as H1 by (vm_compute; reflexivity).
  assert (record out.1.2 !! 0%nat = Some (optField "Level" "level", VInt 25))
    as H2 by (vm_compute; reflexivity).
  assert (record out.1.2 !! 2%nat = Some (optField "Name" "name", VString "n"))
    as H3 by (vm_compute; reflexivity).
  assert (Load testLib env [] "APP" (ptrToStruct "*main.Config") None m
          = (out.1.1, out.1.2, out.2)) as Hload.
  { change (out = (out.1.1, out.1.2, out.2)). clearbody out. by destruct out as [[??]?]. }
  assert (∀ i typ ty u a,
            record m !! i = Some (typ, VValue ty u a) → recognised typ = false) as Hnv.
  { intros i typ ty u a Hi.
    destruct i as [|[|[|i]]]; simpl in Hi; discriminate Hi. }
  assert (concreteFields m = true) as Hc by (vm_compute; reflexivity).
  pose proof (Load_idempotent testLib env [] ["prog"; "-level=3"] "APP"
                (ptrToStruct "*main.Config") m out.1.1 out.1.2 out.2 Hc Hnv Hload)
    as Hagain.
  split; [exact H1|]. split; [exact H2|]. split; [exact H3|].
  rewrite Hagain. clearbody out. by destruct out as [[??]?].
Defined.

(** A flag argument that [url.Parse] rejects, for a [url.URL] field:
    [urlValue.Set] returns the error before it writes, so the field keeps
    the URL the environment gave it, and [Load] ends as the caller's flag
    set says -- with the flag package's error for the value under
    [ContinueOnError], an exit with status 2 under [ExitOnError], a panic
    under [PanicOnError].  The arguments after the flag are not looked
    at. *)
Theorem Load_invalid_url_flag L env prefix config f0 m prog rest m1 f1 i typ u0 a u e :
  Load L env [prog] prefix config (Some f0) m = (Done None, m1, Some f1) →
  record m !! i = Some (typ, VURL u0) →
  recognised typ = true →
  url_Parse L a = (u, Some e) →
  Load L env (prog :: ("-" +:+ Tag_Get (Tag typ) tagPrefix +:+ "=" +:+ a) :: rest)
    prefix config (Some f0) m
  = (match errorHandling f0 with
     | ContinueOnError =>
         Done (Some (invalidFlagValue a (Tag_Get (Tag typ) tagPrefix) e))
     | ExitOnError => Exit 2
     | PanicOnError => Panic "flag: parse error"
     end, m1, Some f1).
Proof.
  intros Hload Hi Hr Hparse.
  destruct (decide (ValueOf config = ofPtr ofStruct)) as [Hcfg|Hcfg];
    [|by rewrite Load_not_struct in Hload].
  destruct (Load_no_arguments_inv L env [prog] prefix config (Some f0) m m1 (Some f1)
              Hcfg (or_intror eq_refl) Hload) as (s1 & Hrun & -> & Hf1).
  simpl in Hrun, Hf1. simplify_eq.
  rewrite (Load_arguments _ _ _ _ _ _ _ _ s1 Hcfg Hrun).
  pose proof (setAll_errorHandling _ _ _ _ _ _ Hrun) as Heh. simpl in Heh.
  destruct (setAll_flag_defined _ _ _ _ _ _ _ _ _ Hrun Hi Hr)
    as (fv & Hfv & Hf & Hn & Hd & He).
  simpl in Hfv. simplify_eq.
  rewrite (Parse_cons_equals L _ EmptyString (urlValue i)) by done.
  unfold bind. simpl. unfold urlValue_Set. rewrite Hparse. unfold ret, failf.
  rewrite Heh. by destruct (errorHandling f0).
Qed.

Lemma Load_invalid_url_flag_witness :
  let m := mkMemory Config [] in
  let cfg := ptrToStruct "*structopt.Config" in
  let f0 := NewFlagSet "TestFlags" ContinueOnError in
  let after := Load testLib testEnv ["prog"] "APP" cfg (Some f0) m in
  ∃ f1, after = (Done None, after.1.2, Some f1)
        ∧ record after.1.2 !! 6%nat
          = Some (optField "URL" "url",
                  VURL (mkURL "https" EmptyString "example.com" "/env"
                          EmptyString EmptyString))
        ∧ Load testLib testEnv ["prog"; "-url=:foo"; "-int=50"] "APP" cfg (Some f0) m
          = (Done (Some (invalidFlagValue ":foo" "url"
                           (libError "missing protocol scheme"))),
             after.1.2, Some f1).
Proof.
  intros m cfg f0 after.
  pose (f1 := match after.2 with Some f => f | None => f0 end).
  assert (after = (Done None, after.1.2, Some f1)) as Hload by (vm_compute; reflexivity).
  assert (record after.1.2 !! 6%nat
          = Some (optField "URL" "url",
                  VURL (mkURL "https" EmptyString "example.com" "/env"
                          EmptyString EmptyString))) as Hurl
    by (vm_compute; reflexivity).
  exists f1. split; [exact Hload|]. split; [exact Hurl|].
  exact (Load_invalid_url_flag testLib testEnv "APP" cfg f0 m "prog" ["-int=50"]
           after.1.2 f1 6%nat (optField "URL" "url") emptyURL ":foo" None
           (libError "missing protocol scheme") Hload eq_refl eq_refl eq_refl).
Defined.



(** [Load] calls [Set] only on the objects its options point to: a user
    object that no settable tagged field points to, and that no flag the
    caller had defined is bound to, is after [Load] what it was before,
    however [Load] ends. *)
Theorem Load_keeps_objects L env osArgs prefix config flags m r m' f' addr :
  (∀ i typ ty u,
     record m !! i = Some (typ, VValue ty u addr) → recognised typ = false) →
  (∀ n fl ty u,
     formal (flagSetFor prefix flags) !! n = Some fl →
     flValue fl ≠ userValue ty u addr) →
  Load L env osArgs prefix config flags m = (r, m', f') →
  heap m' !! addr = heap m !! addr.
Proof.
  intros Hfields Hcaller Hload.
  destruct (decide (ValueOf config = ofPtr ofStruct)) as [Hcfg|Hcfg];
    [|rewrite Load_not_struct in Hload by done; by simplify_eq].
  rewrite Load_struct in Hload by done.
  destruct (setAll L env _ _) as [r1 s1] eqn:Hrun.
  assert (∀ o ty u, o ∈ inferFields L prefix 0 (record m) →
                    iface o ≠ VValue ty u addr) as Hopts.
  { intros o ty u (i & typ & d & Hi & Hr & ->)%elem_of_inferFields Hv.
    simpl in Hv. subst d. specialize (Hfields i typ ty u Hi). congruence. }
  pose proof (setAll_heap_frame L env _ _ _ _ addr Hrun Hopts) as Hframe.
  simpl in Hframe.
  destruct r1 as [[e|]| |c]; simplify_eq; try done.
  destruct flags as [f0|]; [|by simplify_eq].
  destruct osArgs as [|prog args]; [by simplify_eq|].
  destruct (Parse L args s1) as [r2 s2] eqn:Hp.
  assert (heap (mem s2) !! addr = heap m !! addr) as Hk2; [|by simplify_eq].
  destruct (setAll_success_inv _ _ _ _ _ Hrun) as (_ & _ & Hformal).
  refine (proj1 (Parse_invariant L (λ st, heap (mem st) !! addr = heap m !! addr)
                   args s1 r2 s2 _ Hframe Hp)).
  intros name fl a st r1 st1 HQ Hfs Hf Hset.
  assert (∀ ty u, flValue fl ≠ userValue ty u addr) as Hfl.
  { intros ty u Hv. apply Hformal in Hf as [Hf|(o & fv & Ho & Hfv & -> & ->)].
    - by eapply Hcaller.
    - simpl in Hv. subst fv. apply (Hopts o ty u Ho).
      destruct (iface o); simpl in Hfv; by simplify_eq. }
  apply Value_Set_sound in Hset.
  inversion Hset as [r' Hr'|p v err Hw Hsh|ty u addr' obj' err Hv]; subst; simpl; try done.
  rewrite list_lookup_insert_ne; [done|].
  intros ->. by eapply Hfl.
Qed.

Lemma Load_keeps_objects_witness :
  let m := mkMemory [ (optField "MACAddress" "mac.address",
                       VValue "*structopt.macAddr" macAddr 0);
                      (mkField "Spare" true [] Concrete, VValue "*structopt.macAddr" macAddr 1) ]
                    [ []; [1; 2; 3; 4; 5; 6] ] in
  let env : gmap string string := {[ "APP_MAC.ADDRESS" := "aa:bb:cc:dd:ee:ff" ]} in
  let f0 := NewFlagSet "main" ContinueOnError in
  let out := Load testLib env ["prog"; "-mac.address"; "ff:ee:dd:cc:bb:aa"] "APP"
               (ptrToStruct "*structopt.Test") (Some f0) m in
  out.1.1 = Done None
  ∧ heap out.1.2 !! 0%nat = Some [255; 238; 221; 204; 187; 170]
  ∧ heap out.1.2 !! 1%nat = Some [1; 2; 3; 4; 5; 6].
Proof.
  intros m env f0 out.
  assert (out.1.1 = Done None) as H1 by (vm_compute; reflexivity).
  assert (heap out.1.2 !! 0%nat = Some [255; 238; 221; 204; 187; 170]) as H2
    by (vm_compute; reflexivity).
  split; [exact H1|]. split; [exact H2|].
  assert (Load testLib env ["prog"; "-mac.address"; "ff:ee:dd:cc:bb:aa"] "APP"
            (ptrToStruct "*structopt.Test") (Some f0) m
          = (out.1.1, out.1.2, out.2)) as Hload.
  { change (out = (out.1.1, out.1.2, out.2)). clearbody out. by destruct out as [[??]?]. }
  assert (∀ i typ ty u,
            record m !! i = Some (typ, VValue ty u 1%nat) → recognised typ = false) as Hf.
  { intros i typ ty u Hi.
    destruct i as [|[|i]]; simpl in Hi; [discriminate Hi| |discriminate Hi].
    injection Hi as <- _ _. reflexivity. }
  assert (∀ n fl ty u,
            formal (flagSetFor "APP" (Some f0)) !! n = Some fl →
            flValue fl ≠ userValue ty u 1%nat) as Hc.
  { intros n fl ty u Hn. vm_compute in Hn. discriminate Hn. }
  exact (Load_keeps_objects testLib env ["prog"; "-mac.address"; "ff:ee:dd:cc:bb:aa"]
           "APP" (ptrToStruct "*structopt.Test") (Some f0) m out.1.1 out.1.2 out.2
           1%nat Hf Hc Hload).
Defined.

(** [urlValue.Set] and [urlValue.String] go through the same pointer: after
    [Set] accepted a text, [String] gives the text of the URL that
    [url.Parse] made of it, and that URL is in the field; after [Set]
    rejected a text, [String] gives what it gave before. *)
Theorem urlValue_Set_String L (URL_String : URL → string) p typ u0 a s :
  record (mem s) !! p = Some (typ, VURL u0) →
  match url_Parse L a with
  | (Some x, None) =>
      ∃ s', urlValue_Set L p a s = (Done None, s')
            ∧ record (mem s') !! p = Some (typ, VURL x)
            ∧ urlValue_String URL_String (Some p) (mem s') = URL_String x
  | (_, Some e) =>
      urlValue_Set L p a s = (Done (Some e), s)
      ∧ urlValue_String URL_String (Some p) (mem s) = URL_String u0
  | (None, None) => urlValue_Set L p a s = (Panic "nil pointer dereference", s)
  end.
Proof.
  intros Hp. unfold urlValue_Set.
  destruct (url_Parse L a) as [[x|] [e|]]; unfold ret, panic, bind, poke.
  - split; [done|]. unfold urlValue_String. by rewrite Hp.
  - eexists. split; [done|]. cbn [mem]. unfold urlValue_String.
    by rewrite (pokeMem_lookup p (VURL x) (mem s) typ (VURL u0) Hp).
  - split; [done|]. unfold urlValue_String. by rewrite Hp.
  - done.
Qed.

Lemma urlValue_Set_String_witness :
  let s := mkState (mkMemory Config []) (NewFlagSet "main" ContinueOnError) in
  let show := λ x : URL, (Scheme x +:+ "://" +:+ Host x +:+ Path x) in
  ∃ s', urlValue_Set testLib 6 "https://example.com/flag" s = (Done None, s')
        ∧ urlValue_String show (Some 6%nat) (mem s') = "https://example.com/flag".
Proof.
  intros s show.
  pose proof (urlValue_Set_String testLib show 6%nat (optField "URL" "url") emptyURL
                "https://example.com/flag" s eq_refl) as H.
  change (url_Parse testLib "https://example.com/flag")
    with (Some (mkURL "https" EmptyString "example.com" "/flag" EmptyString EmptyString),
          @None error) in H.
  destruct H as (s' & Hset & _ & Hstr).
  exists s'. split; [exact Hset|exact Hstr].
Defined.
